(** * Multi-pass device reduction (reduction::v9)

    A shallow embedding of [Tutorials/reduction/include/Reduction/v9.hpp]:
    the pass planner [new_size], the device kernel (bounds-safe read,
    per-thread fold, warp shuffles, shared-memory exchange), the host pass
    loop of the call operator with its front/back buffer swap, and the
    constructor that sizes the two buffers.

    Integers are [Z] with the wrap-around of their C++ type written out;
    compile-time template arguments (block size, warp width, items per
    thread) and thread indices are [nat]; device buffers are lists. *)

From Stdlib Require Import ZArith Lia String.
From stdpp Require Import base option list.

Local Open Scope Z_scope.

(** ** Machine integers *)

(** [uint32_t]: values modulo 2^32. *)
Definition u32 (x : Z) : Z := x mod 2 ^ 32.

(** [int32_t]: two's-complement values in [-2^31, 2^31). The conversion of
    an out-of-range value is modular (C++20); signed overflow of [+] is
    undefined in the source and is given the same wrap here. *)
Definition i32 (x : Z) : Z := (x + 2 ^ 31) mod 2 ^ 32 - 2 ^ 31.

(** [std::size_t]: values modulo 2^64. *)
Definition size_t (x : Z) : Z := x mod 2 ^ 64.

(** ** Compile-time utilities

    Modelled from the spec: [tmp_utils.hpp] ([tmp::static_for],
    [tmp::static_switch] and their predicate and step functors) is not under
    src/. [static_for<Init, Cond, Step>(f)] calls [f<I>()] for
    [I = Init, Step(Init), ...] while [Cond(I)] holds, testing [Cond]
    before the first call (the kernel relies on this when
    [ItemsPerThread = 1]); the fuel bounds the template recursion depth. *)
Fixpoint static_for {St : Type} (fuel : nat) (I : nat) (cond : nat -> bool)
    (step : nat -> nat) (f : nat -> St -> St) (s : St) : St :=
  match fuel with
  | O => s
  | S fuel' =>
      if cond I then static_for fuel' (step I) cond step f (f I s) else s
  end.

Definition less_than (n : nat) : nat -> bool := fun i => (i <? n)%nat.
Definition not_equal (n : nat) : nat -> bool := fun i => negb (i =? n)%nat.
Definition increment (k : nat) : nat -> nat := fun i => (i + k)%nat.
Definition divide (k : nat) : nat -> nat := fun i => (i / k)%nat.
Definition divide_ceil (k : nat) : nat -> nat :=
  fun i => (i / k + (if (i mod k =? 0)%nat then 0 else 1))%nat.
Definition constant (k : nat) : nat -> nat := fun _ => k.
Definition select (p : nat -> bool) (a b : nat -> nat) : nat -> nat :=
  fun i => if p i then a i else b i.

(** The three menus of compile-time values the dispatcher enumerates. *)
Definition block_size_menu : list Z := [32; 64; 128; 256; 512; 1024].
Definition warp_size_menu : list Z := [32; 64].
Definition items_per_thread_menu : list Z := [1; 2; 3; 4; 8; 16].

Definition in_menu (menu : list Z) (v : Z) : bool := existsb (Z.eqb v) menu.

(** ** Pass planner *)

(** [new_size(factor, actual)]: [actual / factor], plus one when the
    division leaves a remainder. Division by a zero [factor] is undefined in
    the source; every statement below has [1 <= factor]. *)
Definition new_size (factor actual : Z) : Z :=
  size_t (actual / factor + (if actual mod factor =? 0 then 0 else 1)).

(** ** Device kernel *)

Section Kernel.
Context {T : Type}.
Variable op : T -> T -> T.
Variable zero_elem : T.

(** A read of [buf[p]] on the device. A position outside the allocation
    is an invalid access, reported as [None]. *)
Definition load (buf : list T) (p : Z) : option T :=
  if p <? 0 then None else buf !! Z.to_nat p.

(** The store [buf[p] = v], invalid outside the allocation. *)
Definition store (buf : list T) (p : nat) (v : T) : option (list T) :=
  if (p <? length buf)%nat then Some (<[p := v]> buf) else None.

(** [read_global_safe(i)]: [i] is [int32_t], [ItemsPerThread] and
    [front_size] are [uint32_t], so the first comparison is unsigned; the
    pack [I...] is [0 .. ItemsPerThread-1] as [int32_t], so [i + I] is a
    signed sum, converted to unsigned for the comparison with
    [front_size] and used as it is for the subscript. *)
Definition read_global_safe (ItemsPerThread : nat) (front : list T)
    (front_size : Z) (i : Z) : option (list T) :=
  let pack := seqZ 0 (Z.of_nat ItemsPerThread) in
  if u32 (u32 i + Z.of_nat ItemsPerThread) <? front_size
  then mapM (fun I => load front (i32 (i + I))) pack
  else mapM (fun I => if u32 (i32 (i + I)) <? front_size
                      then load front (i32 (i + I))
                      else Some zero_elem) pack.

(** Modelled from the spec: [hip::static_array<T, ItemsPerThread>] and
    [get<I>] of [hip_utils.hpp], which is not under src/: the
    ItemsPerThread items a thread holds, read by position. *)
Definition get (I : nat) (arr : list T) : T := nth I arr zero_elem.

(** Reduce ItemsPerThread to scalar:
    [get<0>(arr) = op(get<0>(arr), get<I>(arr))] for [I = 1 ..]. *)
Definition reduce_items (ItemsPerThread : nat) (arr : list T) : T :=
  get 0 (static_for ItemsPerThread 1 (less_than ItemsPerThread) (increment 1)
           (fun I arr => <[0%nat := op (get 0 arr) (get I arr)]> arr) arr).

(** [gid = bid * (blockDim.x * ItemsPerThread) + tid * ItemsPerThread],
    computed in [uint32_t] and stored in an [int32_t]. *)
Definition gid (BlockSize ItemsPerThread bid tid : nat) : Z :=
  i32 (u32 (u32 (Z.of_nat bid * u32 (Z.of_nat BlockSize * Z.of_nat ItemsPerThread))
            + u32 (Z.of_nat tid * Z.of_nat ItemsPerThread))).

(** The block runs in lockstep, statement by statement: [res] holds the
    register [res] of every thread of the block, indexed by [tid]. This is
    the execution the warp-synchronous shuffles and the [__syncthreads()]
    barriers of the source are written for; other interleavings are
    outside the model. *)

(** [__shfl_down(res, Delta)] for thread [tid]: the value of the lane
    [Delta] above in the same warp, or the thread's own value when that
    lane is outside the warp. *)
Definition shfl_down (WarpSize : nat) (res : list T) (tid Delta : nat) : T :=
  let own := nth tid res zero_elem in
  if (tid mod WarpSize + Delta <? WarpSize)%nat
  then nth (tid + Delta) res own
  else own.

(** One shuffle step [res = op(res, __shfl_down(res, Delta))] of the
    warps with [wid < ActiveWarps]. *)
Definition shfl_step (WarpSize ActiveWarps Delta : nat) (res : list T) : list T :=
  imap (fun tid r =>
          if (tid / WarpSize <? ActiveWarps)%nat
          then op r (shfl_down WarpSize res tid Delta)
          else r) res.

(** Warp reduction: [Delta = WarpSize / 2, WarpSize / 4, ..., 1]. *)
Definition warp_reduce (WarpSize ActiveWarps : nat) (res : list T) : list T :=
  static_for WarpSize (WarpSize / 2) (not_equal 0) (divide 2)
    (shfl_step WarpSize ActiveWarps) res.

(** Write warp result from local to shared: lane 0 of every active warp
    stores [shared[wid] = res]. *)
Definition write_shared (WarpSize ActiveWarps : nat) (res shared : list T) : list T :=
  foldl (fun sh tid =>
           if (tid / WarpSize <? ActiveWarps)%nat && (tid mod WarpSize =? 0)%nat
           then <[(tid / WarpSize)%nat := nth tid res zero_elem]> sh
           else sh)
        shared (seq 0 (length res)).

(** [read_shared_safe(i)]. *)
Definition read_shared_safe (WarpCount : nat) (shared : list T) (i : nat) : T :=
  if (i <? WarpCount)%nat then nth i shared zero_elem else zero_elem.

Record block : Type := Block { res : list T; shared : list T }.

(** The body of the outer [static_for] for one value of [ActiveWarps]:
    warp reduction, write to shared, barrier, read back. *)
Definition block_round (BlockSize WarpSize ActiveWarps : nat) (b : block) : block :=
  let WarpCount := (BlockSize / WarpSize)%nat in
  let r := warp_reduce WarpSize ActiveWarps (res b) in
  let sh := write_shared WarpSize ActiveWarps r (shared b) in
  {| res := map (read_shared_safe WarpCount sh) (seq 0 BlockSize); shared := sh |}.

(** [kernel<BlockSize, WarpSize, ItemsPerThread>] for the block [bid]:
    the value thread 0 stores at [back[bid]], or [None] when a thread
    makes an invalid access. [shared0] is the content of the
    uninitialised [__shared__] array at entry. *)
Definition kernel (BlockSize WarpSize ItemsPerThread : nat) (front : list T)
    (front_size : Z) (shared0 : list T) (bid : nat) : option T :=
  let WarpCount := (BlockSize / WarpSize)%nat in
  res0 ← mapM (fun tid =>
                 arr ← read_global_safe ItemsPerThread front front_size
                         (gid BlockSize ItemsPerThread bid tid);
                 Some (reduce_items ItemsPerThread arr))
              (seq 0 BlockSize);
  let b := static_for (S WarpCount) WarpCount (not_equal 0)
             (select (not_equal 1) (divide_ceil WarpSize) (constant 0))
             (block_round BlockSize WarpSize)
             {| res := res0; shared := shared0 |} in
  Some (nth 0 (res b) zero_elem).

(** A launch of [grid] blocks: every block reads [front] and its thread 0
    stores one value into [back]. No block reads [back] and the blocks
    store to different cells, so they are run one after the other.
    [lds bid] is the garbage block [bid] finds in its shared array. *)
Definition launch (BlockSize WarpSize ItemsPerThread : nat) (grid : nat)
    (front back : list T) (front_size : Z) (lds : nat -> nat -> T)
    : option (list T) :=
  foldl (fun acc bid =>
           back' ← acc;
           v ← kernel BlockSize WarpSize ItemsPerThread front front_size
                 (map (lds bid) (seq 0 (BlockSize / WarpSize))) bid;
           store back' bid v)
        (Some back) (seq 0 grid).
End Kernel.

(** ** Host side: errors, device state and the call monad *)

(** The two device allocations made by the constructor. *)
Inductive ptr : Type := BufA | BufB.

Inductive hipError_t : Type := hipSuccess | hipErrorCode (code : positive).

(** How a call can stop early. [InvalidAccess] stands for behaviour the
    source leaves undefined (an access outside an allocation, dereferencing
    the end iterator of an empty span). *)
Inductive error : Type :=
| HipError (operation : string) (status : hipError_t)
| UnsupportedConfiguration
| InvalidAccess.

Inductive outcome (A : Type) : Type :=
| Ret (a : A)
| Raise (e : error)
| OutOfFuel.
Arguments Ret {A} a.
Arguments Raise {A} e.
Arguments OutOfFuel {A}.

(** A state and error monad: the state survives an error, so that what a
    failed call leaves behind can be inspected. *)
Definition M (St A : Type) : Type := St -> outcome A * St.

Definition ret {St A} (a : A) : M St A := fun s => (Ret a, s).
Definition raise {St A} (e : error) : M St A := fun s => (Raise e, s).
Definition out_of_fuel {St A} : M St A := fun s => (OutOfFuel, s).
Definition bind {St A B} (m : M St A) (k : A -> M St B) : M St B :=
  fun s => match m s with
           | (Ret a, s') => k a s'
           | (Raise e, s') => (Raise e, s')
           | (OutOfFuel, s') => (OutOfFuel, s')
           end.
Definition gets {St A} (f : St -> A) : M St A := fun s => (Ret (f s), s).
Definition modify {St} (f : St -> St) : M St unit := fun s => (Ret tt, f s).

Notation "x <- m ;; k" := (bind m (fun x => k))
  (at level 100, m at next level, right associativity).
Notation "m ;; k" := (bind m (fun _ => k))
  (at level 100, right associativity).

(** Modelled from the spec: [tmp::static_switch<Menu>(value, f)] of
    [tmp_utils.hpp], which is not under src/. It calls [f<V>()] for the menu
    entry [V] equal to the runtime value, and a value missing from the menu
    is reported as a configuration error, not skipped. *)
Definition static_switch {St A} (menu : list Z) (value : Z) (f : nat -> M St A)
    : M St A :=
  if in_menu menu value then f (Z.to_nat value) else raise UnsupportedConfiguration.

(** The device operations a call performs on the two buffers; a trace
    lists them oldest first. *)
Inductive event : Type :=
| CopyIn (dst : ptr) (count : nat)
| Launch (src dst : ptr) (grid block front_size : Z)
| CopyOut (src : ptr).

Section Host.
Context {T : Type}.
Variable op : T -> T -> T.
Variable zero_elem : T.

(** The platform: the status the [k]-th HIP runtime call returns, the
    garbage a block finds in its shared array ([lds launch bid slot]), and
    the garbage a fresh allocation holds. *)
Variable hip_status : nat -> hipError_t.
Variable lds : nat -> nat -> nat -> T.
Variable uninit : ptr -> nat -> T.

(** [sizeof(T)], in bytes. *)
Variable sizeof_T : Z.

(** The data members of [v9] that change or are read during a call.
    [kernel_op] and [zero_elem] are the [op] and [zero_elem] of the
    section; the spans [input_sizes] and [block_sizes] are read by the
    constructor only. *)
Record v9 : Type := V9 {
  front : ptr;
  back : ptr;
  origi_front : ptr;
  origi_back : ptr;
  warp_size : Z
}.

(** The device: the content of the two allocations, the number of runtime
    calls and of kernel launches made so far, the error
    [hipGetLastError] would return, and the trace of buffer operations. *)
Record device : Type := Device {
  memA : list T;
  memB : list T;
  calls : nat;
  launches : nat;
  last_error : hipError_t;
  trace : list event
}.

Definition state : Type := v9 * device.

Definition mem (d : device) (p : ptr) : list T :=
  match p with BufA => memA d | BufB => memB d end.

Definition set_mem (p : ptr) (l : list T) (d : device) : device :=
  match p with
  | BufA => Device l (memB d) (calls d) (launches d) (last_error d) (trace d)
  | BufB => Device (memA d) l (calls d) (launches d) (last_error d) (trace d)
  end.

Definition record (e : event) (d : device) : device :=
  Device (memA d) (memB d) (calls d) (launches d) (last_error d) (trace d ++ [e]).

(** Every HIP runtime call takes its status from the platform; an error
    status stays as the last error until it is read. *)
Definition runtime_call : M state hipError_t :=
  fun '(o, d) =>
    let e := hip_status (calls d) in
    let le := match e with hipSuccess => last_error d | _ => e end in
    (Ret e, (o, Device (memA d) (memB d) (S (calls d)) (launches d) le (trace d))).

(** Modelled from the spec: [HIP_CHECK] and [hip::check] of
    [hip_utils.hpp], which is not under src/. A status other than
    [hipSuccess] stops the call and is propagated, tagged with the
    operation that failed. *)
Definition HIP_CHECK (operation : string) (call : M state hipError_t) : M state unit :=
  e <- call ;;
  match e with
  | hipSuccess => ret tt
  | _ => raise (HipError operation e)
  end.

(** [hipGetLastError()]: returns the last error and resets it. *)
Definition hipGetLastError : M state hipError_t :=
  fun '(o, d) =>
    (Ret (last_error d),
     (o, Device (memA d) (memB d) (calls d) (launches d) hipSuccess (trace d))).

(** [hipMalloc(&p, bytes)]: an allocation of [bytes] bytes, which holds
    [bytes / sizeof(T)] whole elements. *)
Definition hipMalloc (p : ptr) (bytes : Z) : M state hipError_t :=
  e <- runtime_call ;;
  match e with
  | hipSuccess =>
      modify (fun '(o, d) =>
                (o, set_mem p (map (uninit p) (seq 0 (Z.to_nat (bytes / sizeof_T)))) d)) ;;
      ret e
  | _ => ret e
  end.

(** [hipMemcpy(dst, input.data(), input.size() * sizeof(T), hipMemcpyHostToDevice)]. *)
Definition hipMemcpyHostToDevice (dst : ptr) (input : list T) : M state hipError_t :=
  e <- runtime_call ;;
  match e with
  | hipSuccess =>
      buf <- gets (fun '(_, d) => mem d dst) ;;
      if (length input <=? length buf)%nat
      then modify (fun '(o, d) =>
                     (o, record (CopyIn dst (length input))
                           (set_mem dst (input ++ drop (length input) buf) d))) ;;
           ret e
      else raise InvalidAccess
  | _ => ret e
  end.

(** [hipMemcpy(&result, src, sizeof(T), hipMemcpyDeviceToHost)]: the
    status and the element read. *)
Definition hipMemcpyDeviceToHost (src : ptr) : M state (hipError_t * option T) :=
  e <- runtime_call ;;
  match e with
  | hipSuccess =>
      buf <- gets (fun '(_, d) => mem d src) ;;
      match buf !! 0%nat with
      | Some v => modify (fun '(o, d) => (o, record (CopyOut src) d)) ;;
                  ret (e, Some v)
      | None => raise InvalidAccess
      end
  | _ => ret (e, None)
  end.

(** [hipLaunchKernelGGL(kernel<BlockSize, WarpSize, ItemsPerThread>,
    dim3(grid), dim3(BlockSize), 0, hipStreamDefault, front, back,
    kernel_op, zero_elem, step_size)]. The grid dimension and the
    kernel's [front_size] parameter are [uint32_t]. A launch the platform
    rejects runs no block and leaves its status as the last error. *)
Definition hipLaunchKernelGGL (BlockSize WarpSize ItemsPerThread : nat)
    (grid step_size : Z) : M state unit :=
  e <- runtime_call ;;
  match e with
  | hipSuccess =>
      s <- gets id ;;
      let '(o, d) := s in
      match launch op zero_elem BlockSize WarpSize ItemsPerThread
              (Z.to_nat (u32 grid)) (mem d (front o)) (mem d (back o))
              (u32 step_size) (lds (launches d)) with
      | Some out =>
          modify (fun '(o, d) =>
            let d' := record (Launch (front o) (back o) (u32 grid)
                                (Z.of_nat BlockSize) (u32 step_size))
                        (set_mem (back o) out d) in
            (o, Device (memA d') (memB d') (calls d') (S (launches d'))
                  (last_error d') (trace d')))
      | None => raise InvalidAccess
      end
  | _ => ret tt
  end.

(** [std::swap(front, back)]. *)
Definition swap : M state unit :=
  modify (fun '(o, d) =>
            (V9 (back o) (front o) (origi_front o) (origi_back o) (warp_size o), d)).

(** [front = origi_front; back = origi_back;]. *)
Definition restore : M state unit :=
  modify (fun '(o, d) =>
            (V9 (origi_front o) (origi_back o) (origi_front o) (origi_back o)
               (warp_size o), d)).

(** The lambda [kernel_dispatcher] of the call operator. *)
Definition kernel_dispatcher (block_size items_per_thread factor step_size : Z)
    : M state unit :=
  static_switch block_size_menu block_size (fun BlockSize =>
    ws <- gets (fun '(o, _) => warp_size o) ;;
    static_switch warp_size_menu ws (fun WarpSize =>
      static_switch items_per_thread_menu items_per_thread (fun ItemsPerThread =>
        hipLaunchKernelGGL BlockSize WarpSize ItemsPerThread
          (new_size factor step_size) step_size))).

(** The loop [while(curr > 1)] of the call operator; the fuel bounds the
    number of iterations. *)
Fixpoint pass_loop (fuel : nat) (block_size items_per_thread factor curr : Z)
    : M state unit :=
  if 1 <? curr then
    match fuel with
    | O => out_of_fuel
    | S fuel' =>
        kernel_dispatcher block_size items_per_thread factor curr ;;
        HIP_CHECK "hipKernelLaunchGGL" hipGetLastError ;;
        let curr := new_size factor curr in
        (if 1 <? curr then swap else ret tt) ;;
        pass_loop fuel' block_size items_per_thread factor curr
    end
  else ret tt.

(** [v9::operator()(input, block_size, items_per_thread)]. The elapsed
    time, a float read from the device timer, is not part of the model:
    the result is the reduced scalar. *)
Definition operator_call (fuel : nat) (input : list T)
    (block_size items_per_thread : Z) : M state T :=
  let factor := size_t (block_size * items_per_thread) in
  f <- gets (fun '(o, _) => front o) ;;
  HIP_CHECK "hipMemcpy" (hipMemcpyHostToDevice f input) ;;
  HIP_CHECK "hipEventCreate" runtime_call ;;
  HIP_CHECK "hipEventCreate" runtime_call ;;
  HIP_CHECK "hipEventRecord" runtime_call ;;
  pass_loop fuel block_size items_per_thread factor (Z.of_nat (length input)) ;;
  HIP_CHECK "hipEventRecord" runtime_call ;;
  HIP_CHECK "hipEventSynchronize" runtime_call ;;
  b <- gets (fun '(o, _) => back o) ;;
  r <- hipMemcpyDeviceToHost b ;;
  HIP_CHECK "hipMemcpy" (ret r.1) ;;
  HIP_CHECK "hipEventElapsedTime" runtime_call ;;
  HIP_CHECK "hipEventDestroy" runtime_call ;;
  HIP_CHECK "hipEventDestroy" runtime_call ;;
  restore ;;
  match r.2 with
  | Some result => ret result
  | None => raise InvalidAccess
  end.

(** [std::min_element] and [std::max_element], dereferenced: [None] on
    an empty span. *)
Definition min_element (l : list Z) : option Z :=
  match l with [] => None | x :: l' => Some (foldl Z.min x l') end.
Definition max_element (l : list Z) : option Z :=
  match l with [] => None | x :: l' => Some (foldl Z.max x l') end.

(** The state before the constructor runs: nothing allocated. *)
Definition blank : state :=
  (V9 BufA BufB BufA BufB 0, Device [] [] 0 0 hipSuccess []).

(** The constructor [v9::v9]: the front buffer is requested with
    [sizeof(T) * largest_size] bytes and the back buffer with
    [new_size(smallest_factor, largest_size) * sizeof(T)] bytes, where
    [smallest_factor] is the least of the block sizes; both byte counts
    are products in [std::size_t] and wrap. Capacities are counted in
    elements. *)
Definition v9_new (input_sizes block_sizes : list Z) (devProp_warpSize : Z)
    : M state unit :=
  match min_element block_sizes, max_element input_sizes with
  | Some smallest_factor, Some largest_size =>
      HIP_CHECK "hipMalloc" (hipMalloc BufA (size_t (sizeof_T * largest_size))) ;;
      HIP_CHECK "hipMalloc"
        (hipMalloc BufB (size_t (new_size smallest_factor largest_size * sizeof_T))) ;;
      HIP_CHECK "hipGetDevice" runtime_call ;;
      HIP_CHECK "hipGetDeviceProperties" runtime_call ;;
      modify (fun '(_, d) => (V9 BufA BufB BufA BufB devProp_warpSize, d))
  | _, _ => raise InvalidAccess
  end.
End Host.

(** ** Reference oracle and the pass plan *)

Section Reference.
Context {T : Type}.
Variable op : T -> T -> T.
Variable zero_elem : T.

(** The combination of all elements of a list, closed by the neutral
    element: what a group of elements padded with [zero_elem] reduces
    to. *)
Definition msum (l : list T) : T := foldr op zero_elem l.

(** The reference oracle: the sequential left-to-right fold of a
    non-empty input. *)
Definition sequential_fold (input : list T) : option T :=
  match input with
  | [] => None
  | x :: l => Some (foldl op x l)
  end.
End Reference.

(** The pass plan as the planner's loop invariant words it: while the
    current size is above 1 one more pass is issued from the front to the
    back buffer; the buffers are exchanged after a pass only when a further
    pass follows. [pass_chain factor block curr f b passes last] lists the
    launches from size [curr] with front [f] and back [b]; [last] is the
    back buffer when the loop ends. *)
Inductive pass_chain (factor block : Z) : Z -> ptr -> ptr -> list event -> ptr -> Prop :=
| chain_done curr f b :
    curr <= 1 -> pass_chain factor block curr f b [] b
| chain_last curr f b :
    1 < curr -> new_size factor curr <= 1 ->
    pass_chain factor block curr f b
      [Launch f b (u32 (new_size factor curr)) block (u32 curr)] b
| chain_more curr f b passes last :
    1 < curr -> 1 < new_size factor curr ->
    pass_chain factor block (new_size factor curr) b f passes last ->
    pass_chain factor block curr f b
      (Launch f b (u32 (new_size factor curr)) block (u32 curr) :: passes) last.

(** What a call can observe of a state besides the count of runtime calls
    and the pending error: the object, the two buffers, the number of
    launches and the trace. *)
Definition view {T : Type} (s : @state T) : v9 * list T * list T * nat * list event :=
  (s.1, memA s.2, memB s.2, launches s.2, trace s.2).

(** ** Specifications of calls *)

(** Partial correctness: when [m] returns from a state in [P], the value
    and the final state are in [Q]. *)
Definition hoare {St A : Type} (P : St -> Prop) (m : M St A) (Q : A -> St -> Prop) : Prop :=
  forall s, P s -> forall a s', m s = (Ret a, s') -> Q a s'.

(** [m] never stops for lack of fuel. *)
Definition fuelled {St A : Type} (m : M St A) : Prop :=
  forall s, (m s).1 <> OutOfFuel.

(** [m] keeps the invariant [I], whatever its outcome. *)
Definition keeps {St A : Type} (I : St -> Prop) (m : M St A) : Prop :=
  forall s, I s -> I (m s).2.

(** A launch that reads one buffer and writes the other. *)
Definition not_in_place (e : event) : Prop :=
  match e with
  | Launch src dst _ _ _ => src <> dst
  | _ => True
  end.

(** What a call leaves fixed: the capacities of the two allocations, the
    original pointers and the warp width; and what it maintains: front and
    back are different buffers, the trace [tr0] is only extended, and no
    launch added to it ran in place. *)
Definition engine_inv {T : Type} (capA capB : nat) (o0 : v9) (tr0 : list event)
    (s : @state T) : Prop :=
  length (memA s.2) = capA /\ length (memB s.2) = capB
  /\ origi_front s.1 = origi_front o0 /\ origi_back s.1 = origi_back o0
  /\ warp_size s.1 = warp_size o0
  /\ front s.1 <> back s.1
  /\ exists added, trace s.2 = tr0 ++ added /\ Forall not_in_place added.

(** An engine between two calls: the pointers are the original ones, the
    two allocations differ and no error is pending. *)
Definition ready {T : Type} (s : @state T) : Prop :=
  front s.1 = origi_front s.1 /\ back s.1 = origi_back s.1
  /\ origi_front s.1 <> origi_back s.1
  /\ last_error s.2 = hipSuccess.

(** ** Concrete platforms and engines for the examples *)

(** A platform on which every runtime call succeeds, and one on which the
    call number [k] fails. *)
Definition all_ok : nat -> hipError_t := fun _ => hipSuccess.
Definition fails_at (k : nat) : nat -> hipError_t :=
  fun i => if (i =? k)%nat then hipErrorCode 1 else hipSuccess.

(** Garbage: 77 in shared memory, 99 in a fresh allocation. *)
Definition lds77 : nat -> nat -> nat -> Z := fun _ _ _ => 77.
Definition fresh99 : ptr -> nat -> Z := fun _ _ => 99.

(** The engine of sums of 4-byte integers built for the given input sizes
    and block sizes on a device of the given warp width. *)
Definition sum_engine (warp : Z) (input_sizes block_sizes : list Z) : @state Z :=
  (v9_new all_ok fresh99 4 input_sizes block_sizes warp blank).2.

(** A call of the sum engine on the platform [hip], with fuel for as many
    passes as the input has elements. *)
Definition sum_call (hip : nat -> hipError_t) (input : list Z)
    (block_size items_per_thread : Z) : M (@state Z) Z :=
  operator_call Z.add 0 hip lds77 (length input) input block_size items_per_thread.

Definition one_to (n : nat) : list Z := map Z.of_nat (seq 1 n).

(** A front buffer of 2^31 + 16 elements, for a pass whose last block
    starts at element 2^31. *)
Definition front_above_int32 : list Z := replicate (Z.to_nat (2 ^ 31 + 16)) 7.

(** * Properties *)

(** ** Machine integers and the pass planner *)

Lemma u32_small x : 0 <= x < 2 ^ 32 -> u32 x = x.
Proof. intros H. unfold u32. apply Z.mod_small. exact H. Qed.

Lemma i32_small x : - 2 ^ 31 <= x < 2 ^ 31 -> i32 x = x.
Proof. intros H. unfold i32. rewrite Z.mod_small; lia. Qed.

Lemma size_t_small x : 0 <= x < 2 ^ 64 -> size_t x = x.
Proof. intros H. unfold size_t. apply Z.mod_small. exact H. Qed.

(** Without the wrap, [new_size] is the quotient rounded up. *)
Lemma new_size_exact factor n :
  1 <= factor -> 0 <= n < 2 ^ 64 ->
  new_size factor n = (n + factor - 1) / factor.
Proof.
  intros Hf Hn. unfold new_size.
  assert (Hq : 0 <= n / factor <= n).
  { split; [apply Z.div_pos; lia|]. apply Z.div_le_upper_bound; nia. }
  assert (Hr := Z.mod_pos_bound n factor ltac:(lia)).
  assert (Hd := Z.div_mod n factor ltac:(lia)).
  destruct (Z.eqb_spec (n mod factor) 0) as [E|E].
  - rewrite size_t_small by lia.
    apply Z.div_unique with (r := factor - 1); lia.
  - assert (n / factor + 1 < 2 ^ 64).
    { destruct (Z.eq_dec factor 1) as [->|]; [rewrite Z.mod_1_r in E; lia|].
      assert (2 * (n / factor) <= n) by nia. lia. }
    rewrite size_t_small by lia.
    apply Z.div_unique with (r := n mod factor - 1); lia.
Qed.

(** [new_size factor n] is the least number of groups of [factor] elements
    that cover [n] elements. *)
Lemma new_size_cover factor n :
  1 <= factor -> 0 <= n < 2 ^ 64 ->
  factor * (new_size factor n - 1) < n <= factor * new_size factor n.
Proof.
  intros Hf Hn. rewrite new_size_exact by assumption.
  assert (Hr := Z.mod_pos_bound (n + factor - 1) factor ltac:(lia)).
  assert (Hd := Z.div_mod (n + factor - 1) factor ltac:(lia)).
  lia.
Qed.

Lemma new_size_bounds factor n :
  1 <= factor -> 1 <= n < 2 ^ 64 -> 1 <= new_size factor n <= n.
Proof.
  intros Hf Hn. assert (H := new_size_cover factor n Hf ltac:(lia)).
  split; nia.
Qed.

Lemma new_size_zero factor : 1 <= factor -> new_size factor 0 = 0.
Proof.
  intros Hf. rewrite new_size_exact by lia.
  apply Z.div_small. lia.
Qed.

Lemma new_size_shrinks factor n :
  2 <= factor -> 1 < n < 2 ^ 64 -> new_size factor n < n.
Proof.
  intros Hf Hn. assert (H := new_size_cover factor n ltac:(lia) ltac:(lia)).
  nia.
Qed.

Lemma new_size_mono_factor f g n :
  1 <= f <= g -> 0 <= n < 2 ^ 64 -> new_size g n <= new_size f n.
Proof.
  intros Hfg Hn.
  assert (Hf := new_size_cover f n ltac:(lia) Hn).
  assert (Hg := new_size_cover g n ltac:(lia) Hn).
  destruct (Z_le_gt_dec (new_size g n) (new_size f n)) as [|Hgt]; [assumption|].
  assert (0 <= new_size f n) by nia.
  assert (g * new_size f n <= g * (new_size g n - 1)) by nia.
  assert (f * new_size f n <= g * new_size f n) by nia.
  lia.
Qed.

(** C3: for every factor >= 1 and every current size n (a [size_t]),
    [new_size factor n] is the ceiling of [n / factor]: it equals
    [(n + factor - 1) / factor] and is the least group count whose groups
    cover all [n] elements, so no remainder element is dropped. *)
Theorem C3_new_size_is_ceiling factor n :
  1 <= factor -> 0 <= n < 2 ^ 64 ->
  new_size factor n = (n + factor - 1) / factor
  /\ n <= factor * new_size factor n
  /\ (forall k, n <= factor * k -> new_size factor n <= k).
Proof.
  intros Hf Hn. assert (H := new_size_cover factor n Hf Hn).
  split; [apply new_size_exact; assumption|]. split; [lia|].
  intros k Hk. nia.
Qed.

Lemma C3_new_size_is_ceiling_witness :
  new_size 8 10 = (10 + 8 - 1) / 8
  /\ 10 <= 8 * new_size 8 10
  /\ (forall k, 10 <= 8 * k -> new_size 8 10 <= k).
Proof. apply (C3_new_size_is_ceiling 8 10); lia. Defined.

(** ** Sums over a commutative monoid *)

Section Sums.
Context {T : Type}.
Variable op : T -> T -> T.
Variable zero_elem : T.
Hypothesis op_assoc : forall x y z, op x (op y z) = op (op x y) z.
Hypothesis op_comm : forall x y, op x y = op y x.
Hypothesis op_zero : forall x, op x zero_elem = x.

Local Abbreviation msum := (msum op zero_elem).

Lemma op_zero_l x : op zero_elem x = x.
Proof. rewrite op_comm. apply op_zero. Qed.

Lemma msum_cons x l : msum (x :: l) = op x (msum l).
Proof. reflexivity. Qed.

Lemma msum_app l1 l2 : msum (l1 ++ l2) = op (msum l1) (msum l2).
Proof.
  induction l1 as [|x l1 IH].
  - symmetry. apply op_zero_l.
  - rewrite <- app_comm_cons, !msum_cons, IH. apply op_assoc.
Qed.

Lemma msum_singleton x : msum [x] = x.
Proof. apply op_zero. Qed.

Lemma msum_snoc l x : msum (l ++ [x]) = op (msum l) x.
Proof. rewrite msum_app, msum_singleton. reflexivity. Qed.

Lemma msum_zeros (A : Type) (l : list A) : msum (map (fun _ => zero_elem) l) = zero_elem.
Proof.
  induction l as [|a l IH]; [reflexivity|].
  rewrite map_cons, msum_cons, IH. apply op_zero.
Qed.

Lemma op_swap4 a b c d : op (op a b) (op c d) = op (op a c) (op b d).
Proof.
  rewrite <- !op_assoc. f_equal.
  rewrite !op_assoc. f_equal. apply op_comm.
Qed.

Lemma msum_zip_with l k :
  length l = length k -> msum (zip_with op l k) = op (msum l) (msum k).
Proof.
  revert k. induction l as [|x l IH]; intros [|y k] Hlen; try discriminate.
  - symmetry. apply op_zero.
  - injection Hlen as Hlen. change (zip_with op (x :: l) (y :: k))
      with (op x y :: zip_with op l k).
    rewrite !msum_cons, IH by assumption. symmetry. apply op_swap4.
Qed.

(** The sequential fold and the padded sum agree. *)
Lemma foldl_msum x l : foldl op x l = op x (msum l).
Proof.
  revert x. induction l as [|y l IH]; intros x.
  - symmetry. apply op_zero.
  - change (foldl op x (y :: l)) with (foldl op (op x y) l).
    rewrite IH, msum_cons. symmetry. apply op_assoc.
Qed.

Lemma sequential_fold_msum x l : sequential_fold op (x :: l) = Some (msum (x :: l)).
Proof. unfold sequential_fold. f_equal. apply foldl_msum. Qed.

(** Reading past the end of [d] as the neutral element does not change
    the sum of a window of [d]. *)
Lemma msum_padded (d : list T) n a :
  msum (map (fun p => default zero_elem (d !! p)) (seq a n)) = msum (take n (drop a d)).
Proof.
  revert a. induction n as [|n IH]; intros a; [reflexivity|].
  change (seq a (S n)) with (a :: seq (S a) n).
  rewrite map_cons, msum_cons, IH.
  destruct (d !! a) as [x|] eqn:E.
  - rewrite (drop_S _ _ _ E). reflexivity.
  - apply lookup_ge_None in E.
    rewrite !drop_ge by lia. rewrite take_nil. apply op_zero.
Qed.

(** A window of [m] groups of [k] elements is summed group by group. *)
Lemma msum_groups (d : list T) k m a :
  msum (map (fun j => msum (take k (drop (a + j * k) d))) (seq 0 m))
  = msum (take (m * k) (drop a d)).
Proof.
  induction m as [|m IH]; [reflexivity|].
  rewrite seq_S, map_app. change (map ?f [?x]) with [f x].
  rewrite msum_snoc, IH. rewrite Nat.add_0_l.
  replace (S m * k)%nat with (m * k + k)%nat by lia.
  rewrite <- (take_drop (m * k) (take (m * k + k) (drop a d))).
  rewrite msum_app. f_equal.
  - rewrite take_take. f_equal. f_equal. lia.
  - f_equal. rewrite <- take_drop_commute, drop_drop. reflexivity.
Qed.
End Sums.

(** ** The kernel: bounds-safe read and per-thread fold *)

Lemma mapM_map_Some {A B : Type} (f : A -> option B) (g : A -> B) (l : list A) :
  (forall x, x ∈ l -> f x = Some (g x)) -> mapM f l = Some (map g l).
Proof.
  intros H. apply mapM_Some. induction l as [|a l IH]; constructor.
  - apply H. left.
  - apply IH. intros x Hx. apply H. right. exact Hx.
Qed.

Lemma map_seqZ_seq {B : Type} (h : nat -> B) (i : Z) (n : nat) :
  0 <= i ->
  map (fun I => h (Z.to_nat (i + I))) (seqZ 0 (Z.of_nat n)) = map h (seq (Z.to_nat i) n).
Proof.
  intros Hi. apply list_eq. intros k.
  rewrite !list_lookup_fmap.
  destruct (decide (k < n)%nat) as [Hk|Hk].
  - rewrite lookup_seqZ_lt by lia. rewrite lookup_seq_lt by lia. simpl.
    f_equal. f_equal. lia.
  - rewrite lookup_seqZ_ge by lia. rewrite lookup_seq_ge by lia. reflexivity.
Qed.

Section ReadFold.
Context {T : Type}.
Variable op : T -> T -> T.
Variable zero_elem : T.

Local Abbreviation msum := (msum op zero_elem).

Lemma load_lookup (buf : list T) p : 0 <= p -> load buf p = buf !! Z.to_nat p.
Proof. intros Hp. unfold load. destruct (Z.ltb_spec p 0); [lia|reflexivity]. Qed.

Lemma load_negative (buf : list T) p : p < 0 -> load buf p = None.
Proof. intros Hp. unfold load. destruct (Z.ltb_spec p 0); [reflexivity|lia]. Qed.

(** Within the signed 32-bit index range, [read_global_safe] returns the
    valid prefix of the front buffer at the thread's positions, read as
    [zero_elem] from [front_size] on. *)
Lemma read_global_safe_padded ItemsPerThread (front : list T) front_size i :
  0 <= i -> i + Z.of_nat ItemsPerThread <= 2 ^ 31 ->
  0 <= front_size <= Z.of_nat (length front) ->
  read_global_safe zero_elem ItemsPerThread front front_size i
  = Some (map (fun p => default zero_elem (take (Z.to_nat front_size) front !! p))
            (seq (Z.to_nat i) ItemsPerThread)).
Proof.
  intros Hi Hrange Hsize. unfold read_global_safe.
  rewrite <- (map_seqZ_seq
    (fun p => default zero_elem (take (Z.to_nat front_size) front !! p))) by lia.
  rewrite (u32_small i) by lia.
  rewrite (u32_small (i + _)) by lia.
  assert (Hin : forall I, I ∈ seqZ 0 (Z.of_nat ItemsPerThread) ->
                0 <= I < Z.of_nat ItemsPerThread).
  { intros I HI. apply elem_of_seqZ in HI. lia. }
  assert (Hvalid : forall p, p < front_size -> 0 <= p ->
            load front p
            = Some (default zero_elem (take (Z.to_nat front_size) front !! Z.to_nat p))).
  { intros p Hp Hp0. rewrite load_lookup by lia.
    rewrite lookup_take_lt by lia.
    destruct (lookup_lt_is_Some_2 front (Z.to_nat p) ltac:(lia)) as [x ->].
    reflexivity. }
  destruct (Z.ltb_spec (i + Z.of_nat ItemsPerThread) front_size) as [Hfast|Hslow].
  - apply mapM_map_Some. intros I HI. apply Hin in HI.
    rewrite i32_small by lia. apply Hvalid; lia.
  - apply mapM_map_Some. intros I HI. apply Hin in HI.
    rewrite i32_small by lia. rewrite u32_small by lia.
    destruct (Z.ltb_spec (i + I) front_size) as [Hlt|Hge].
    + apply Hvalid; lia.
    + rewrite lookup_take_ge by lia. reflexivity.
Qed.

(** The loop over [I] leaves, in slot 0, the left fold of the array. *)
Lemma static_for_items n fuel I (arr : list T) :
  (1 <= I)%nat -> (n <= I + fuel)%nat -> length arr = n ->
  get zero_elem 0
    (static_for fuel I (less_than n) (increment 1)
       (fun I arr => <[0%nat := op (get zero_elem 0 arr) (get zero_elem I arr)]> arr) arr)
  = foldl op (get zero_elem 0 arr) (drop I arr).
Proof.
  revert I arr. induction fuel as [|fuel IH]; intros I arr HI Hfuel Hlen.
  - simpl. rewrite drop_ge by lia. reflexivity.
  - simpl. unfold less_than at 1.
    destruct (Nat.ltb_spec I n) as [Hlt|Hge].
    + rewrite IH; [|unfold increment; lia..|rewrite length_insert; exact Hlen].
      unfold increment.
      destruct (lookup_lt_is_Some_2 arr I ltac:(lia)) as [x Hx].
      rewrite (drop_S _ _ _ Hx). simpl.
      replace (I + 1)%nat with (S I) by lia.
      rewrite drop_insert_lt by lia.
      f_equal. unfold get at 1. rewrite nth_lookup.
      rewrite list_lookup_insert_eq by lia. simpl.
      f_equal. unfold get. rewrite nth_lookup, Hx. reflexivity.
    + rewrite drop_ge by lia. reflexivity.
Qed.

Lemma reduce_items_foldl n x (arr : list T) :
  length (x :: arr) = n -> reduce_items op zero_elem n (x :: arr) = foldl op x arr.
Proof.
  intros Hlen. unfold reduce_items.
  rewrite (static_for_items n); [reflexivity|lia| |exact Hlen].
  simpl in Hlen. lia.
Qed.

Hypothesis op_assoc : forall x y z, op x (op y z) = op (op x y) z.
Hypothesis op_zero : forall x, op x zero_elem = x.

Lemma reduce_items_msum n (arr : list T) :
  (1 <= n)%nat -> length arr = n -> reduce_items op zero_elem n arr = msum arr.
Proof.
  intros Hn Hlen. destruct arr as [|x arr]; [simpl in Hlen; lia|].
  rewrite (reduce_items_foldl n) by exact Hlen.
  apply foldl_msum; assumption.
Qed.
End ReadFold.

(** ** The kernel: warp shuffles and the exchange through shared memory *)

Lemma static_for_stop {St : Type} fuel I cond step (f : nat -> St -> St) s :
  cond I = false -> static_for fuel I cond step f s = s.
Proof. intros H. destruct fuel; simpl; [reflexivity|]. rewrite H. reflexivity. Qed.

Lemma static_for_step {St : Type} fuel I cond step (f : nat -> St -> St) s :
  cond I = true ->
  static_for (S fuel) I cond step f s = static_for fuel (step I) cond step f (f I s).
Proof. intros H. simpl. rewrite H. reflexivity. Qed.

Lemma static_for_preserves {St : Type} (P : St -> Prop) fuel I cond step
    (f : nat -> St -> St) s :
  (forall I s, P s -> P (f I s)) -> P s -> P (static_for fuel I cond step f s).
Proof.
  intros Hf. revert I s. induction fuel as [|fuel IH]; intros I s Hs; simpl.
  - exact Hs.
  - destruct (cond I); [apply IH, Hf, Hs|exact Hs].
Qed.

Lemma take_add_split {A : Type} (l : list A) n k :
  take (n + k) l = take n l ++ take k (drop n l).
Proof.
  rewrite <- (take_drop n (take (n + k) l)).
  rewrite take_take, Nat.min_l by lia.
  f_equal. symmetry. apply take_drop_commute.
Qed.

Lemma div_mod_lane W w l :
  (l < W)%nat -> ((w * W + l) / W = w)%nat /\ ((w * W + l) mod W = l)%nat.
Proof.
  intros Hl. split.
  - symmetry. apply (Nat.div_unique _ _ _ l); lia.
  - symmetry. apply (Nat.mod_unique _ _ w); lia.
Qed.

Section Warp.
Context {T : Type}.
Variable op : T -> T -> T.
Variable zero_elem : T.
Hypothesis op_assoc : forall x y z, op x (op y z) = op (op x y) z.
Hypothesis op_comm : forall x y, op x y = op y x.
Hypothesis op_zero : forall x, op x zero_elem = x.

Local Abbreviation msum := (msum op zero_elem).
Local Abbreviation shfl := (shfl_step op zero_elem).
Local Abbreviation wreduce := (warp_reduce op zero_elem).

Lemma length_shfl_step W A Delta (r : list T) :
  length (shfl W A Delta r) = length r.
Proof. apply length_imap. Qed.

Lemma length_warp_reduce W A (r : list T) : length (wreduce W A r) = length r.
Proof.
  unfold warp_reduce.
  apply (static_for_preserves (fun r' => length r' = length r)); [|reflexivity].
  intros I s Hs. rewrite length_shfl_step. exact Hs.
Qed.

(** One shuffle step folds the upper half of the live lanes of an active
    warp onto the lower half. *)
Lemma shfl_step_window W A Delta w (r : list T) :
  (2 * Delta <= W)%nat -> (w < A)%nat -> ((w + 1) * W <= length r)%nat ->
  take Delta (drop (w * W) (shfl W A Delta r))
  = zip_with op (take Delta (drop (w * W) r)) (take Delta (drop (w * W + Delta) r)).
Proof.
  intros HD Hw Hlen. apply list_eq. intros l.
  destruct (decide (l < Delta)%nat) as [Hl|Hl].
  - rewrite lookup_zip_with.
    rewrite !lookup_take_lt, !lookup_drop by lia.
    unfold shfl_step. rewrite list_lookup_imap.
    destruct (lookup_lt_is_Some_2 r (w * W + l) ltac:(lia)) as [x Hx].
    destruct (lookup_lt_is_Some_2 r (w * W + Delta + l) ltac:(lia)) as [y Hy].
    rewrite Hx, Hy. simpl.
    destruct (div_mod_lane W w l ltac:(lia)) as [Hdiv Hmod].
    rewrite Hdiv. destruct (Nat.ltb_spec w A); [|lia].
    do 2 f_equal. unfold shfl_down. rewrite Hmod.
    destruct (Nat.ltb_spec (l + Delta) W); [|lia].
    apply nth_lookup_Some. rewrite <- Hy. f_equal. lia.
  - rewrite lookup_zip_with. rewrite !lookup_take_ge by lia. reflexivity.
Qed.

Lemma shfl_step_msum W A Delta w (r : list T) :
  (2 * Delta <= W)%nat -> (w < A)%nat -> ((w + 1) * W <= length r)%nat ->
  msum (take Delta (drop (w * W) (shfl W A Delta r)))
  = msum (take (2 * Delta) (drop (w * W) r)).
Proof.
  intros HD Hw Hlen. rewrite shfl_step_window by assumption.
  rewrite (msum_zip_with op zero_elem) by
    (try assumption; rewrite !length_take, !length_drop; lia).
  replace (2 * Delta)%nat with (Delta + Delta)%nat by lia.
  rewrite take_add_split, (msum_app op zero_elem), drop_drop by assumption.
  reflexivity.
Qed.

(** After the steps [2^j, ..., 2, 1], lane 0 of an active warp holds the
    sum of its first [2^(j+1)] lanes. *)
Lemma shfl_tree W A w j :
  forall fuel (r : list T),
  (j < fuel)%nat -> (2 ^ S j <= W)%nat -> (w < A)%nat ->
  ((w + 1) * W <= length r)%nat ->
  nth (w * W)
    (static_for fuel (2 ^ j) (not_equal 0) (divide 2) (shfl W A) r) zero_elem
  = msum (take (2 ^ S j) (drop (w * W) r)).
Proof.
  assert (Hlane0 : forall r' : list T, ((w + 1) * W <= length r')%nat -> (1 <= W)%nat ->
            nth (w * W) r' zero_elem = msum (take 1 (drop (w * W) r'))).
  { intros r' Hlen HW.
    destruct (lookup_lt_is_Some_2 r' (w * W) ltac:(lia)) as [x Hx].
    rewrite (drop_S _ _ _ Hx). rewrite (nth_lookup_Some _ _ _ _ Hx).
    symmetry. apply op_zero. }
  induction j as [|j IH]; intros fuel r Hfuel HW Hw Hlen;
    (destruct fuel as [|fuel]; [lia|]).
  - rewrite static_for_step by reflexivity.
    rewrite static_for_stop by reflexivity.
    simpl in HW. rewrite Hlane0 by (rewrite ?length_shfl_step; lia).
    change (2 ^ 0)%nat with 1%nat.
    rewrite shfl_step_msum by (simpl; lia). reflexivity.
  - assert (Hpos : (2 ^ S j <> 0)%nat) by (apply Nat.pow_nonzero; lia).
    rewrite static_for_step
      by (unfold not_equal; destruct (Nat.eqb_spec (2 ^ S j) 0); [lia|reflexivity]).
    assert (Hhalf : divide 2 (2 ^ S j) = (2 ^ j)%nat).
    { unfold divide. rewrite Nat.pow_succ_r'. rewrite Nat.mul_comm.
      apply Nat.div_mul. lia. }
    rewrite Hhalf.
    assert (HW' : (2 * 2 ^ S j <= W)%nat) by (rewrite <- Nat.pow_succ_r'; exact HW).
    rewrite IH by (rewrite ?length_shfl_step; lia).
    rewrite shfl_step_msum by lia.
    rewrite <- Nat.pow_succ_r'. reflexivity.
Qed.

(** Warp reduction: lane 0 of every active warp ends with the sum of the
    warp. *)
Lemma warp_reduce_lane0 K A w (r : list T) :
  (1 <= K)%nat -> (w < A)%nat -> ((w + 1) * 2 ^ K <= length r)%nat ->
  nth (w * 2 ^ K) (wreduce (2 ^ K) A r) zero_elem
  = msum (take (2 ^ K) (drop (w * 2 ^ K) r)).
Proof.
  intros HK Hw Hlen. unfold warp_reduce.
  destruct K as [|j]; [lia|].
  assert (Hhalf : (2 ^ S j / 2 = 2 ^ j)%nat).
  { rewrite Nat.pow_succ_r'. rewrite Nat.mul_comm. apply Nat.div_mul. lia. }
  rewrite Hhalf. apply shfl_tree; try assumption; [|lia].
  assert (j < 2 ^ j)%nat by (apply Nat.pow_gt_lin_r; lia).
  rewrite Nat.pow_succ_r'. lia.
Qed.

(** Warps that are not active keep their registers. *)
Lemma warp_reduce_inactive W A (r : list T) t :
  (A <= t / W)%nat -> wreduce W A r !! t = r !! t.
Proof.
  intros Ht. unfold warp_reduce.
  apply (static_for_preserves (fun r' => r' !! t = r !! t)); [|reflexivity].
  intros I s Hs. unfold shfl_step. rewrite list_lookup_imap, Hs.
  destruct (r !! t); [|reflexivity]. simpl.
  destruct (Nat.ltb_spec (t / W) A); [lia|reflexivity].
Qed.
End Warp.

Section Block.
Context {T : Type}.
Variable op : T -> T -> T.
Variable zero_elem : T.
Hypothesis op_assoc : forall x y z, op x (op y z) = op (op x y) z.
Hypothesis op_comm : forall x y, op x y = op y x.
Hypothesis op_zero : forall x, op x zero_elem = x.

Local Abbreviation msum := (msum op zero_elem).
Local Abbreviation wshared := (write_shared zero_elem).
Local Abbreviation round := (block_round op zero_elem).

(** Lane 0 of every active warp stores its register in its own slot;
    the other slots keep their content. *)
Lemma write_shared_prefix W A (r sh : list T) n :
  (1 <= W)%nat -> (A <= length sh)%nat ->
  let sh' := foldl (fun sh tid =>
               if (tid / W <? A)%nat && (tid mod W =? 0)%nat
               then <[(tid / W)%nat := nth tid r zero_elem]> sh
               else sh) sh (seq 0 n) in
  length sh' = length sh
  /\ forall w, sh' !! w = if (w <? A)%nat && (w * W <? n)%nat
                          then Some (nth (w * W) r zero_elem) else sh !! w.
Proof.
  intros HW HA. cbv zeta. induction n as [|n [IHlen IH]].
  - split; [reflexivity|]. intros w. simpl.
    destruct (w <? A)%nat; reflexivity.
  - rewrite seq_S, foldl_snoc, Nat.add_0_l.
    assert (Hdm := Nat.div_mod_eq n W).
    assert (Hm := Nat.mod_upper_bound n W ltac:(lia)).
    destruct (Nat.ltb_spec (n / W) A) as [HnA|HnA];
      destruct (Nat.eqb_spec (n mod W) 0) as [Hn0|Hn0]; simpl.
    2,3,4: split; [exact IHlen|]; intros w; rewrite IH;
      destruct (Nat.ltb_spec w A); simpl; [|reflexivity..];
      destruct (Nat.ltb_spec (w * W) n), (Nat.ltb_spec (w * W) (S n));
      try reflexivity; try lia;
      (assert (w = n / W)%nat by nia); subst w; lia.
    split; [rewrite length_insert; exact IHlen|]. intros w.
    destruct (decide (w = n / W)%nat) as [->|Hne].
    + rewrite list_lookup_insert_eq by lia.
      destruct (Nat.ltb_spec (n / W) A); [|lia].
      destruct (Nat.ltb_spec (n / W * W) (S n)); [|nia]. simpl.
      do 2 f_equal. nia.
    + rewrite list_lookup_insert_ne by congruence. rewrite IH.
      destruct (Nat.ltb_spec w A); simpl; [|reflexivity].
      destruct (Nat.ltb_spec (w * W) n), (Nat.ltb_spec (w * W) (S n));
        try reflexivity; try lia.
      assert (w = n / W)%nat by nia. contradiction.
Qed.

Lemma write_shared_lookup W A (r sh : list T) w :
  (1 <= W)%nat -> (A <= length sh)%nat ->
  wshared W A r sh !! w
  = if (w <? A)%nat && (w * W <? length r)%nat
    then Some (nth (w * W) r zero_elem) else sh !! w.
Proof. intros HW HA. apply (write_shared_prefix W A r sh (length r) HW HA). Qed.

Lemma length_write_shared W A (r sh : list T) :
  (1 <= W)%nat -> (A <= length sh)%nat ->
  length (wshared W A r sh) = length sh.
Proof. intros HW HA. apply (write_shared_prefix W A r sh (length r) HW HA). Qed.

(** One round of the outer loop on a block of [WC] warps of [2^K]
    threads: thread [t] of the first [A] threads ends with the sum of
    warp [t]. *)
Lemma block_round_spec K WC A (b : block) :
  (1 <= K)%nat -> (1 <= A <= WC)%nat ->
  length (res b) = (WC * 2 ^ K)%nat -> length (shared b) = WC ->
  let b' := round (WC * 2 ^ K) (2 ^ K) A b in
  length (res b') = (WC * 2 ^ K)%nat
  /\ length (shared b') = WC
  /\ forall t, (t < WC * 2 ^ K)%nat ->
       res b' !! t
       = Some (if (t <? A)%nat
               then msum (take (2 ^ K) (drop (t * 2 ^ K) (res b)))
               else if (t <? WC)%nat then nth t (shared b) zero_elem
                    else zero_elem).
Proof.
  intros HK HA Hres Hsh. simpl.
  assert (HW : (1 <= 2 ^ K)%nat).
  { assert (2 ^ K <> 0)%nat by (apply Nat.pow_nonzero; lia). lia. }
  assert (Hdiv : (WC * 2 ^ K / 2 ^ K = WC)%nat) by (apply Nat.div_mul; lia).
  rewrite Hdiv. split; [rewrite length_map, length_seq; reflexivity|].
  split; [rewrite length_write_shared by lia; exact Hsh|].
  intros t Ht. rewrite list_lookup_fmap, lookup_seq_lt by lia. simpl.
  f_equal. unfold read_shared_safe.
  destruct (Nat.ltb_spec t WC) as [HtWC|HtWC].
  - rewrite nth_lookup. rewrite write_shared_lookup by lia.
    rewrite (length_warp_reduce op zero_elem), Hres.
    destruct (Nat.ltb_spec t A) as [HtA|HtA]; simpl.
    + destruct (Nat.ltb_spec (t * 2 ^ K) (WC * 2 ^ K)); [|nia]. simpl.
      apply warp_reduce_lane0; try assumption. nia.
    + rewrite nth_lookup. reflexivity.
  - destruct (Nat.ltb_spec t A); [lia|reflexivity].
Qed.

(** The per-warp partial sums, followed by [zero_elem], add up to the sum
    of the block. *)
Lemma msum_warp_partials K WC (r0 r1 : list T) :
  (1 <= WC <= 2 ^ K)%nat -> length r0 = (WC * 2 ^ K)%nat ->
  (forall t, (t < WC * 2 ^ K)%nat ->
     r1 !! t = Some (if (t <? WC)%nat
                     then msum (take (2 ^ K) (drop (t * 2 ^ K) r0))
                     else zero_elem)) ->
  msum (take (2 ^ K) r1) = msum r0.
Proof.
  intros HWC Hlen Hr1.
  assert (Htake : take (2 ^ K) r1
    = map (fun t => msum (take (2 ^ K) (drop (0 + t * 2 ^ K) r0))) (seq 0 WC)
      ++ map (fun _ => zero_elem) (seq WC (2 ^ K - WC))).
  { apply list_eq. intros t.
    destruct (decide (t < 2 ^ K)%nat) as [Ht|Ht].
    - rewrite lookup_take_lt by lia. rewrite Hr1 by nia.
      destruct (Nat.ltb_spec t WC) as [HtWC|HtWC].
      + rewrite lookup_app_l by (rewrite length_map, length_seq; lia).
        rewrite list_lookup_fmap, lookup_seq_lt by lia. reflexivity.
      + rewrite lookup_app_r by (rewrite length_map, length_seq; lia).
        rewrite length_map, length_seq.
        rewrite list_lookup_fmap, lookup_seq_lt by lia. reflexivity.
    - rewrite lookup_take_ge by lia. symmetry. apply lookup_ge_None.
      rewrite length_app, !length_map, !length_seq. lia. }
  rewrite Htake, (msum_app op zero_elem) by assumption.
  rewrite (msum_zeros op zero_elem) by assumption.
  rewrite op_zero, (msum_groups op zero_elem) by assumption.
  rewrite drop_0, take_ge by lia. reflexivity.
Qed.

(** The outer loop of the kernel leaves the sum of the block in thread 0,
    whatever the shared array held at entry. *)
Lemma block_reduce K WC (r0 sh0 : list T) :
  (1 <= K)%nat -> (1 <= WC <= 2 ^ K)%nat ->
  length r0 = (WC * 2 ^ K)%nat -> length sh0 = WC ->
  nth 0 (res (static_for (S WC) WC (not_equal 0)
                (select (not_equal 1) (divide_ceil (2 ^ K)) (constant 0))
                (round (WC * 2 ^ K) (2 ^ K))
                {| res := r0; shared := sh0 |})) zero_elem
  = msum r0.
Proof.
  intros HK HWC Hlen Hsh.
  assert (HW : (2 <= 2 ^ K)%nat).
  { destruct K as [|j]; [lia|]. rewrite Nat.pow_succ_r'.
    assert (2 ^ j <> 0)%nat by (apply Nat.pow_nonzero; lia). lia. }
  rewrite static_for_step
    by (unfold not_equal; destruct (Nat.eqb_spec WC 0); [lia|reflexivity]).
  destruct (block_round_spec K WC WC {| res := r0; shared := sh0 |})
    as (Hlen1 & Hsh1 & Hres1); try assumption; [lia|].
  set (b1 := round (WC * 2 ^ K) (2 ^ K) WC {| res := r0; shared := sh0 |}) in *.
  simpl in Hres1.
  assert (Hres1' : forall t, (t < WC * 2 ^ K)%nat ->
     res b1 !! t = Some (if (t <? WC)%nat
                         then msum (take (2 ^ K) (drop (t * 2 ^ K) r0))
                         else zero_elem)).
  { intros t Ht. rewrite Hres1 by assumption.
    destruct (t <? WC)%nat; reflexivity. }
  destruct (decide (WC = 1%nat)) as [->|Hne].
  - rewrite static_for_stop by reflexivity.
    rewrite (nth_lookup_Some _ _ _ _ (Hres1' 0%nat ltac:(lia))).
    change (0 <? 1)%nat with true. cbv iota.
    rewrite Nat.mul_0_l, drop_0, take_ge by lia. reflexivity.
  - assert (Hstep : select (not_equal 1) (divide_ceil (2 ^ K)) (constant 0) WC = 1%nat).
    { unfold select, not_equal, divide_ceil.
      destruct (Nat.eqb_spec WC 1); [lia|]. simpl.
      destruct (decide (WC = 2 ^ K)%nat) as [->|Hlt].
      - rewrite Nat.div_same, Nat.Div0.mod_same by lia. reflexivity.
      - rewrite Nat.div_small, Nat.mod_small by lia.
        destruct (Nat.eqb_spec WC 0); [lia|reflexivity]. }
    rewrite Hstep.
    destruct WC as [|WC']; [lia|].
    rewrite static_for_step by reflexivity.
    rewrite static_for_stop by reflexivity.
    destruct (block_round_spec K (S WC') 1 b1) as (_ & _ & Hres2);
      try assumption; [lia|].
    rewrite (nth_lookup_Some _ _ _ _ (Hres2 0%nat ltac:(lia))).
    change (0 <? 1)%nat with true. cbv iota.
    rewrite Nat.mul_0_l, drop_0.
    apply (msum_warp_partials K (S WC')); assumption.
Qed.
End Block.

(** ** The kernel and a launch *)

(** [gid] is the thread's offset, wrapped to [int32_t]. *)
Lemma gid_wrapped B IPT bid tid :
  gid B IPT bid tid = i32 (Z.of_nat (bid * (B * IPT) + tid * IPT)).
Proof.
  unfold gid, i32, u32.
  rewrite Z.mul_mod_idemp_r by lia.
  rewrite <- Z.add_mod by lia.
  rewrite Z.add_mod_idemp_l by lia.
  do 3 f_equal. lia.
Qed.

Lemma gid_exact B IPT bid tid :
  (tid < B)%nat ->
  (Z.of_nat bid + 1) * (Z.of_nat B * Z.of_nat IPT) < 2 ^ 31 ->
  gid B IPT bid tid = Z.of_nat (bid * (B * IPT) + tid * IPT).
Proof.
  intros Ht Hrange. unfold gid.
  assert (0 <= Z.of_nat B * Z.of_nat IPT) by lia.
  assert (Z.of_nat tid * Z.of_nat IPT + Z.of_nat IPT <= Z.of_nat B * Z.of_nat IPT) by nia.
  assert (0 <= Z.of_nat bid * (Z.of_nat B * Z.of_nat IPT)) by lia.
  assert (0 <= Z.of_nat tid * Z.of_nat IPT) by lia.
  rewrite (u32_small (Z.of_nat B * Z.of_nat IPT)) by nia.
  rewrite (u32_small (Z.of_nat bid * _)) by nia.
  rewrite (u32_small (Z.of_nat tid * _)) by nia.
  rewrite u32_small by nia. rewrite i32_small by nia. lia.
Qed.

Section Launch.
Context {T : Type}.
Variable op : T -> T -> T.
Variable zero_elem : T.
Hypothesis op_assoc : forall x y z, op x (op y z) = op (op x y) z.
Hypothesis op_comm : forall x y, op x y = op y x.
Hypothesis op_zero : forall x, op x zero_elem = x.

Local Abbreviation msum := (msum op zero_elem).

(** A block of [WC] warps of [2^K] threads, [WC <= 2^K], returns the sum
    of its chunk of the valid prefix of the front buffer. *)
Lemma kernel_sum K WC IPT (front sh0 : list T) front_size bid :
  (1 <= K)%nat -> (1 <= WC <= 2 ^ K)%nat -> (1 <= IPT)%nat ->
  length sh0 = WC ->
  0 <= front_size <= Z.of_nat (length front) ->
  (Z.of_nat bid + 1) * (Z.of_nat (WC * 2 ^ K) * Z.of_nat IPT) < 2 ^ 31 ->
  kernel op zero_elem (WC * 2 ^ K) (2 ^ K) IPT front front_size sh0 bid
  = Some (msum (take (WC * 2 ^ K * IPT)
                  (drop (bid * (WC * 2 ^ K * IPT))
                     (take (Z.to_nat front_size) front)))).
Proof.
  intros HK HWC HIPT Hsh Hsize Hrange. unfold kernel.
  set (B := (WC * 2 ^ K)%nat) in *.
  set (valid := take (Z.to_nat front_size) front).
  rewrite (mapM_map_Some _
    (fun tid => msum (take IPT (drop (bid * (B * IPT) + tid * IPT) valid)))).
  2:{ intros tid Htid. apply elem_of_seq in Htid.
      rewrite gid_exact by lia.
      rewrite read_global_safe_padded; [|lia| |lia].
      2:{ assert (Z.of_nat tid * Z.of_nat IPT + Z.of_nat IPT
                  <= Z.of_nat B * Z.of_nat IPT) by nia.
          nia. }
      cbn [mbind option_bind]. f_equal. rewrite Nat2Z.id.
      rewrite (reduce_items_msum op zero_elem) by
        (try assumption; rewrite length_map, length_seq; reflexivity).
      apply msum_padded; assumption. }
  cbn [mbind option_bind]. f_equal.
  assert (Hdiv : (B / 2 ^ K = WC)%nat).
  { unfold B. apply Nat.div_mul. apply Nat.pow_nonzero. lia. }
  rewrite Hdiv. subst B.
  rewrite (block_reduce op zero_elem) by
    (try assumption; rewrite length_map, length_seq; reflexivity).
  apply msum_groups; assumption.
Qed.

(** A launch whose blocks all return a value fills the first [grid]
    cells of the back buffer with them. *)
Lemma launch_outputs B W IPT grid (front back : list T) front_size lds (v : nat -> T) :
  (grid <= length back)%nat ->
  (forall bid, (bid < grid)%nat ->
     kernel op zero_elem B W IPT front front_size
       (map (lds bid) (seq 0 (B / W))) bid = Some (v bid)) ->
  launch op zero_elem B W IPT grid front back front_size lds
  = Some (map v (seq 0 grid) ++ drop grid back).
Proof.
  unfold launch. induction grid as [|g IH]; intros Hcap Hker.
  - reflexivity.
  - rewrite seq_S, foldl_snoc, Nat.add_0_l.
    rewrite IH by (try lia; intros; apply Hker; lia).
    rewrite Hker by lia. simpl. unfold store.
    rewrite length_app, length_map, length_seq, length_drop.
    destruct (Nat.ltb_spec g (g + (length back - g))); [|lia].
    f_equal. rewrite map_app. simpl. rewrite <- app_assoc. simpl.
    rewrite insert_app_r_alt by (rewrite length_map, length_seq; lia).
    rewrite length_map, length_seq, Nat.sub_diag.
    destruct (lookup_lt_is_Some_2 back g ltac:(lia)) as [x Hx].
    rewrite (drop_S _ _ _ Hx). reflexivity.
Qed.

(** One pass: the outputs of the blocks add up to the sum of the valid
    prefix of the front buffer. *)
Lemma launch_sum K WC IPT grid (front back : list T) front_size lds :
  (1 <= K)%nat -> (1 <= WC <= 2 ^ K)%nat -> (1 <= IPT)%nat ->
  0 <= front_size <= Z.of_nat (length front) ->
  (grid <= length back)%nat ->
  Z.of_nat grid * (Z.of_nat (WC * 2 ^ K) * Z.of_nat IPT) < 2 ^ 31 ->
  front_size <= Z.of_nat grid * (Z.of_nat (WC * 2 ^ K) * Z.of_nat IPT) ->
  exists outs,
    launch op zero_elem (WC * 2 ^ K) (2 ^ K) IPT grid front back front_size lds
    = Some (outs ++ drop grid back)
    /\ length outs = grid
    /\ msum outs = msum (take (Z.to_nat front_size) front).
Proof.
  intros HK HWC HIPT Hsize Hcap Hrange Hcover.
  set (F := (WC * 2 ^ K * IPT)%nat).
  set (valid := take (Z.to_nat front_size) front).
  exists (map (fun bid => msum (take F (drop (0 + bid * F) valid))) (seq 0 grid)).
  split; [|split].
  - apply launch_outputs; [exact Hcap|]. intros bid Hbid.
    assert (Hdiv : (WC * 2 ^ K / 2 ^ K = WC)%nat).
    { apply Nat.div_mul. apply Nat.pow_nonzero. lia. }
    rewrite kernel_sum; try assumption.
    + reflexivity.
    + rewrite length_map, length_seq. exact Hdiv.
    + assert (0 <= Z.of_nat (WC * 2 ^ K) * Z.of_nat IPT) by lia. nia.
  - rewrite length_map, length_seq. reflexivity.
  - rewrite (msum_groups op zero_elem) by assumption.
    rewrite drop_0, take_ge; [reflexivity|].
    unfold valid. rewrite length_take. unfold F. nia.
Qed.
End Launch.

(** ** Rules for the call monad *)

Lemma in_menu_In menu v : in_menu menu v = true <-> In v menu.
Proof.
  unfold in_menu. rewrite existsb_exists. split.
  - intros (x & Hx & E). apply Z.eqb_eq in E. subst x. exact Hx.
  - intros H. exists v. split; [exact H|apply Z.eqb_refl].
Qed.

Lemma bind_Ret {St A B : Type} (m : M St A) (k : A -> M St B) s a s1 :
  m s = (Ret a, s1) -> bind m k s = k a s1.
Proof. intros H. unfold bind. rewrite H. reflexivity. Qed.

Lemma bind_Raise {St A B : Type} (m : M St A) (k : A -> M St B) s e s1 :
  m s = (Raise e, s1) -> bind m k s = (Raise e, s1).
Proof. intros H. unfold bind. rewrite H. reflexivity. Qed.

Lemma bind_inv {St A B : Type} (m : M St A) (k : A -> M St B) s b s' :
  bind m k s = (Ret b, s') -> exists a s1, m s = (Ret a, s1) /\ k a s1 = (Ret b, s').
Proof.
  unfold bind. destruct (m s) as [[a| |] s1]; try discriminate.
  intros E. exists a, s1. split; [reflexivity|exact E].
Qed.

Lemma bind_gets {St A B : Type} (f : St -> A) (k : A -> M St B) s :
  bind (gets f) k s = k (f s) s.
Proof. reflexivity. Qed.

Lemma hoare_ret {St A : Type} (P : St -> Prop) (a : A) (Q : A -> St -> Prop) :
  (forall s, P s -> Q a s) -> hoare P (ret a) Q.
Proof. intros H s Hs a' s' E. injection E as <- <-. apply H, Hs. Qed.

Lemma hoare_raise {St A : Type} (P : St -> Prop) e (Q : A -> St -> Prop) :
  hoare P (raise e) Q.
Proof. intros s _ a s' E. discriminate E. Qed.

Lemma hoare_out_of_fuel {St A : Type} (P : St -> Prop) (Q : A -> St -> Prop) :
  hoare P out_of_fuel Q.
Proof. intros s _ a s' E. discriminate E. Qed.

Lemma hoare_gets {St A : Type} (P : St -> Prop) (f : St -> A) (Q : A -> St -> Prop) :
  (forall s, P s -> Q (f s) s) -> hoare P (gets f) Q.
Proof. intros H s Hs a s' E. injection E as <- <-. apply H, Hs. Qed.

Lemma hoare_modify {St : Type} (P : St -> Prop) (f : St -> St) (Q : unit -> St -> Prop) :
  (forall s, P s -> Q tt (f s)) -> hoare P (modify f) Q.
Proof. intros H s Hs a s' E. injection E as <- <-. apply H, Hs. Qed.

Lemma hoare_bind {St A B : Type} (P : St -> Prop) (m : M St A) (R : A -> St -> Prop)
    (k : A -> M St B) (Q : B -> St -> Prop) :
  hoare P m R -> (forall a, hoare (R a) (k a) Q) -> hoare P (bind m k) Q.
Proof.
  intros Hm Hk s Hs b s' E. unfold bind in E.
  destruct (m s) as [[a| |] s1] eqn:Em; try discriminate E.
  exact (Hk a s1 (Hm s Hs a s1 Em) b s' E).
Qed.

Lemma hoare_gets_bind {St A B : Type} (P : St -> Prop) (f : St -> A)
    (k : A -> M St B) (Q : B -> St -> Prop) :
  (forall a, hoare (fun s => P s /\ a = f s) (k a) Q) -> hoare P (bind (gets f) k) Q.
Proof. intros H s Hs b s' E. exact (H (f s) s (conj Hs eq_refl) b s' E). Qed.

Lemma hoare_weaken {St A : Type} (P P' : St -> Prop) (m : M St A) (Q Q' : A -> St -> Prop) :
  hoare P' m Q' -> (forall s, P s -> P' s) -> (forall a s, Q' a s -> Q a s) ->
  hoare P m Q.
Proof. intros H HP HQ s Hs a s' E. apply HQ, (H s (HP s Hs) a s' E). Qed.

Lemma fuelled_ret {St A : Type} (a : A) : fuelled (@ret St A a).
Proof. intros s. discriminate. Qed.

Lemma fuelled_raise {St A : Type} e : fuelled (@raise St A e).
Proof. intros s. discriminate. Qed.

Lemma fuelled_gets {St A : Type} (f : St -> A) : fuelled (gets f).
Proof. intros s. discriminate. Qed.

Lemma fuelled_modify {St : Type} (f : St -> St) : fuelled (modify f).
Proof. intros s. discriminate. Qed.

Lemma fuelled_bind {St A B : Type} (m : M St A) (k : A -> M St B) :
  fuelled m -> (forall a, fuelled (k a)) -> fuelled (bind m k).
Proof.
  intros Hm Hk s. unfold bind. specialize (Hm s).
  destruct (m s) as [[a| |] s1]; simpl in *; [apply Hk|discriminate|congruence].
Qed.

Lemma fuelled_static_switch {St A : Type} menu value (f : nat -> M St A) :
  (forall V, fuelled (f V)) -> fuelled (static_switch menu value f).
Proof.
  intros Hf. unfold static_switch.
  destruct (in_menu menu value); [apply Hf|apply fuelled_raise].
Qed.

(** ** The host side: what a returning call has done *)

Section HostPartial.
Context {T : Type}.
Variable op : T -> T -> T.
Variable zero_elem : T.
Variable hip_status : nat -> hipError_t.
Variable lds : nat -> nat -> nat -> T.

Local Abbreviation state := (@state T).
Local Abbreviation event_call := (runtime_call hip_status).

(** A checked runtime call that touches no buffer keeps the view. *)
Lemma hoare_event name (P : v9 * list T * list T * nat * list event -> Prop) :
  hoare (fun s : state => P (view s)) (HIP_CHECK name event_call)
    (fun _ s => P (view s)).
Proof.
  intros [o d] HP a s' E. unfold HIP_CHECK, bind, runtime_call in E.
  destruct (hip_status (calls d)); simpl in E; [|discriminate E].
  injection E as _ <-. exact HP.
Qed.

Lemma hoare_copy_in name dst input o mA mB n tr :
  hoare (fun s : state => view s = (o, mA, mB, n, tr))
    (HIP_CHECK name (hipMemcpyHostToDevice hip_status dst input))
    (fun _ s => exists mA' mB',
       view s = (o, mA', mB', n, tr ++ [CopyIn dst (length input)])).
Proof.
  intros [o' d] Hv a s' E. unfold view in Hv. simpl in Hv.
  injection Hv as -> <- <- <- <-.
  unfold HIP_CHECK, hipMemcpyHostToDevice, bind, runtime_call, gets in E.
  destruct (hip_status (calls d)); simpl in E; [|discriminate E].
  destruct (length input <=? length (mem _ dst))%nat; simpl in E; [|discriminate E].
  injection E as _ <-. destruct dst; simpl; eauto.
Qed.

Lemma hoare_copy_out src o mA mB n tr :
  hoare (fun s : state => view s = (o, mA, mB, n, tr))
    (hipMemcpyDeviceToHost hip_status src)
    (fun r s => r.1 = hipSuccess ->
       exists v, r.2 = Some v
       /\ mem s.2 src !! 0%nat = Some v
       /\ view s = (o, mA, mB, n, tr ++ [CopyOut src])).
Proof.
  intros [o' d] Hv a s' E. unfold view in Hv. simpl in Hv.
  injection Hv as -> <- <- <- <-.
  unfold hipMemcpyDeviceToHost, bind, runtime_call, gets, ret in E.
  destruct (hip_status (calls d)); simpl in E.
  - destruct (mem _ src !! 0%nat) as [v|] eqn:Ev; simpl in E; [|discriminate E].
    injection E as <- <-. intros _. exists v. split; [reflexivity|].
    split; [|reflexivity]. destruct src; exact Ev.
  - injection E as <- <-. simpl. discriminate.
Qed.

Lemma hoare_check_status name (e : hipError_t) (P : state -> Prop) :
  hoare P (HIP_CHECK name (ret e)) (fun _ s => P s /\ e = hipSuccess).
Proof.
  intros s Hs a s' E. unfold HIP_CHECK, bind, ret in E.
  destruct e; [|discriminate E]. injection E as _ <-. split; [exact Hs|reflexivity].
Qed.

(** A launch either runs, recording itself, or leaves a pending error. *)
Lemma hoare_launch B W IPT grid step o mA mB n tr :
  hoare (fun s : state => view s = (o, mA, mB, n, tr))
    (hipLaunchKernelGGL op zero_elem hip_status lds B W IPT grid step)
    (fun _ s =>
       (exists mA' mB',
          view s = (o, mA', mB', S n,
                    tr ++ [Launch (front o) (back o) (u32 grid) (Z.of_nat B) (u32 step)]))
       \/ last_error s.2 <> hipSuccess).
Proof.
  intros [o' d] Hv a s' E. unfold view in Hv. simpl in Hv.
  injection Hv as -> <- <- <- <-.
  unfold hipLaunchKernelGGL, bind, runtime_call, gets, modify in E.
  destruct (hip_status (calls d)) eqn:Es; simpl in E.
  - destruct (launch _ _ _ _ _ _ _ _ _ _) as [out|]; [|discriminate E].
    injection E as _ <-. left. destruct (back o); simpl; eauto.
  - injection E as _ <-. right. simpl. discriminate.
Qed.

Lemma hoare_last_error name (P : v9 * list T * list T * nat * list event -> Prop) :
  hoare (fun s : state => P (view s) \/ last_error s.2 <> hipSuccess)
    (HIP_CHECK name hipGetLastError)
    (fun _ s => P (view s)).
Proof.
  intros [o d] HP a s' E. unfold HIP_CHECK, hipGetLastError, bind in E.
  simpl in HP. destruct (last_error d); simpl in E; [|discriminate E].
  injection E as _ <-. destruct HP as [HP|HP]; [exact HP|congruence].
Qed.

(** A dispatch that returns has launched with a block size of the menu, or
    has left a pending error. *)
Lemma hoare_dispatch block_size items_per_thread factor curr o mA mB n tr :
  hoare (fun s : state => view s = (o, mA, mB, n, tr))
    (kernel_dispatcher op zero_elem hip_status lds block_size items_per_thread factor curr)
    (fun _ s =>
       (exists mA' mB',
          view s = (o, mA', mB', S n,
                    tr ++ [Launch (front o) (back o) (u32 (new_size factor curr))
                             block_size (u32 curr)]))
       \/ last_error s.2 <> hipSuccess).
Proof.
  unfold kernel_dispatcher, static_switch.
  destruct (in_menu block_size_menu block_size) eqn:Hb; [|apply hoare_raise].
  assert (Hbs : Z.of_nat (Z.to_nat block_size) = block_size).
  { apply in_menu_In in Hb. apply Z2Nat.id.
    repeat (destruct Hb as [<-|Hb]; [lia|]). destruct Hb. }
  apply hoare_gets_bind. intros ws.
  destruct (in_menu warp_size_menu ws); [|apply hoare_raise].
  destruct (in_menu items_per_thread_menu items_per_thread); [|apply hoare_raise].
  eapply hoare_weaken; [apply hoare_launch|intros s [Hs _]; exact Hs|].
  intros u s Hs. rewrite Hbs in Hs. exact Hs.
Qed.

Lemma hoare_swap o mA mB n tr :
  hoare (fun s : state => view s = (o, mA, mB, n, tr)) swap
    (fun _ s => view s = (V9 (back o) (front o) (origi_front o) (origi_back o)
                            (warp_size o), mA, mB, n, tr)).
Proof.
  apply hoare_modify. intros [o' d] Hv. unfold view in *. simpl in *.
  injection Hv as -> <- <- <- <-. reflexivity.
Qed.

Lemma hoare_restore o mA mB n tr :
  hoare (fun s : state => view s = (o, mA, mB, n, tr)) restore
    (fun _ s => view s = (V9 (origi_front o) (origi_back o) (origi_front o)
                            (origi_back o) (warp_size o), mA, mB, n, tr)).
Proof.
  apply hoare_modify. intros [o' d] Hv. unfold view in *. simpl in *.
  injection Hv as -> <- <- <- <-. reflexivity.
Qed.

(** The loop of a returning call has followed the pass plan: its launches
    are the chain from the initial size, and [back] ends as the buffer the
    last pass wrote. *)
Lemma hoare_pass_loop block_size items_per_thread factor fuel :
  forall curr o mA mB n tr,
  hoare (fun s : state => view s = (o, mA, mB, n, tr))
    (pass_loop op zero_elem hip_status lds fuel block_size items_per_thread factor curr)
    (fun _ s => exists passes f' last mA' mB' n',
       pass_chain factor block_size curr (front o) (back o) passes last
       /\ view s = (V9 f' last (origi_front o) (origi_back o) (warp_size o),
                    mA', mB', n', tr ++ passes)).
Proof.
  induction fuel as [|fuel IH]; intros curr o mA mB n tr.
  - simpl. destruct (Z.ltb_spec 1 curr) as [Hc|Hc]; [apply hoare_out_of_fuel|].
    apply hoare_ret. intros s Hs. exists [], (front o), (back o), mA, mB, n.
    split; [apply chain_done; exact Hc|]. rewrite app_nil_r, Hs. destruct o; reflexivity.
  - simpl. destruct (Z.ltb_spec 1 curr) as [Hc|Hc].
    2:{ apply hoare_ret. intros s Hs. exists [], (front o), (back o), mA, mB, n.
        split; [apply chain_done; exact Hc|]. rewrite app_nil_r, Hs.
        destruct o; reflexivity. }
    eapply hoare_bind; [apply hoare_dispatch|]. intros u.
    eapply hoare_bind.
    { apply (hoare_last_error _ (fun v => exists mA' mB',
        v = (o, mA', mB', S n,
             tr ++ [Launch (front o) (back o) (u32 (new_size factor curr))
                      block_size (u32 curr)]))). }
    intros u0 s (mA1 & mB1 & Hv1). revert s Hv1.
    change (hoare (fun s : state => view s = (o, mA1, mB1, S n,
               tr ++ [Launch (front o) (back o) (u32 (new_size factor curr))
                        block_size (u32 curr)]))
      ((if 1 <? new_size factor curr then swap else ret tt) ;;
       pass_loop op zero_elem hip_status lds fuel block_size items_per_thread
         factor (new_size factor curr))
      (fun _ s => exists passes f' last mA' mB' n',
         pass_chain factor block_size curr (front o) (back o) passes last
         /\ view s = (V9 f' last (origi_front o) (origi_back o) (warp_size o),
                      mA', mB', n', tr ++ passes))).
    destruct (Z.ltb_spec 1 (new_size factor curr)) as [Hn|Hn].
    + eapply hoare_bind; [apply hoare_swap|]. intros u'.
      eapply hoare_weaken; [apply IH|intros s Hs; exact Hs|].
      intros u'' s (passes & f' & last & mA' & mB' & n' & Hchain & Hv). simpl in *.
      eexists (_ :: passes), f', last, mA', mB', n'.
      split; [apply chain_more; eassumption|].
      rewrite Hv, <- app_assoc. reflexivity.
    + eapply (hoare_bind _ _ (fun _ s => view s = _));
        [apply hoare_ret; intros s Hs; exact Hs|]. intros u'.
      eapply hoare_weaken; [apply IH|intros s Hs; exact Hs|].
      intros u'' s (passes & f' & last & mA' & mB' & n' & Hchain & Hv).
      inversion Hchain; subst; try lia.
      eexists [_], f', _, mA', mB', n'.
      split; [apply chain_last; assumption|]. rewrite Hv, app_nil_r. reflexivity.
Qed.

(** A returning call: the launches follow the pass plan, the scalar is the
    first cell of the buffer the plan ends on, and the object has its
    original pointers back. *)
Lemma operator_call_returned fuel input block_size items_per_thread
    (s s' : state) r :
  operator_call op zero_elem hip_status lds fuel input block_size items_per_thread s
  = (Ret r, s') ->
  exists passes last,
    pass_chain (size_t (block_size * items_per_thread)) block_size
      (Z.of_nat (length input)) (front s.1) (back s.1) passes last
    /\ trace s'.2
       = trace s.2 ++ [CopyIn (front s.1) (length input)] ++ passes ++ [CopyOut last]
    /\ mem s'.2 last !! 0%nat = Some r
    /\ s'.1 = V9 (origi_front s.1) (origi_back s.1) (origi_front s.1)
                (origi_back s.1) (warp_size s.1).
Proof.
  intros E. unfold operator_call in E. rewrite bind_gets in E.
  destruct s as [o d]. cbn [fst snd] in *.
  apply bind_inv in E as (u1 & s1 & E1 & E).
  destruct (hoare_copy_in _ _ _ o (memA d) (memB d) (launches d) (trace d)
              (o, d) eq_refl _ _ E1) as (mA1 & mB1 & Hv1).
  apply bind_inv in E as (u2 & s2 & E2 & E).
  assert (Hv2 := hoare_event _ (eq (view s1)) s1 eq_refl _ _ E2).
  apply bind_inv in E as (u3 & s3 & E3 & E).
  assert (Hv3 := hoare_event _ (eq (view s2)) s2 eq_refl _ _ E3).
  apply bind_inv in E as (u4 & s4 & E4 & E).
  assert (Hv4 := hoare_event _ (eq (view s3)) s3 eq_refl _ _ E4).
  apply bind_inv in E as (u5 & s5 & E5 & E).
  assert (Hv4' : view s4 = (o, mA1, mB1, launches d,
                            trace d ++ [CopyIn (front o) (length input)]))
    by congruence.
  destruct (hoare_pass_loop _ _ _ _ _ _ _ _ _ _ s4 Hv4' _ _ E5)
    as (passes & f' & last & mA5 & mB5 & n5 & Hchain & Hv5).
  apply bind_inv in E as (u6 & s6 & E6 & E).
  assert (Hv6 := hoare_event _ (eq (view s5)) s5 eq_refl _ _ E6).
  apply bind_inv in E as (u7 & s7 & E7 & E).
  assert (Hv7 := hoare_event _ (eq (view s6)) s6 eq_refl _ _ E7).
  rewrite bind_gets in E.
  assert (Hv7' : view s7 = (V9 f' last (origi_front o) (origi_back o) (warp_size o),
                            mA5, mB5, n5,
                            (trace d ++ [CopyIn (front o) (length input)]) ++ passes))
    by congruence.
  assert (Hback : (let '(o, _) := s7 in back o) = last).
  { destruct s7 as [o7 d7]. unfold view in Hv7'. simpl in Hv7'.
    injection Hv7' as -> _ _ _ _. reflexivity. }
  rewrite Hback in E.
  apply bind_inv in E as (r8 & s8 & E8 & E).
  assert (H8 := hoare_copy_out _ _ _ _ _ _ s7 Hv7' _ _ E8).
  apply bind_inv in E as (u9 & s9 & E9 & E).
  destruct (hoare_check_status _ _ (eq s8) s8 eq_refl _ _ E9) as [<- Hok].
  destruct (H8 Hok) as (v & Hr & Hmem & Hv8).
  apply bind_inv in E as (u10 & s10 & E10 & E).
  assert (Hv10 := hoare_event _ (eq (view s8)) s8 eq_refl _ _ E10).
  apply bind_inv in E as (u11 & s11 & E11 & E).
  assert (Hv11 := hoare_event _ (eq (view s10)) s10 eq_refl _ _ E11).
  apply bind_inv in E as (u12 & s12 & E12 & E).
  assert (Hv12 := hoare_event _ (eq (view s11)) s11 eq_refl _ _ E12).
  apply bind_inv in E as (u13 & s13 & E13 & E).
  assert (Hv12' : view s12 = (V9 f' last (origi_front o) (origi_back o) (warp_size o),
             mA5, mB5, n5,
             ((trace d ++ [CopyIn (front o) (length input)]) ++ passes)
               ++ [CopyOut last]))
    by congruence.
  assert (Hv13 := hoare_restore _ _ _ _ _ s12 Hv12' _ _ E13).
  rewrite Hr in E. injection E as <- <-.
  exists passes, last. split; [exact Hchain|].
  destruct s13 as [o13 d13]. destruct s8 as [o8 d8].
  unfold view in Hv13, Hv8. cbn [fst snd front back origi_front origi_back warp_size]
    in Hv13, Hv8 |- *.
  injection Hv13 as -> HA HB _ Htr. injection Hv8 as _ HA8 HB8 _ _.
  split; [rewrite Htr, <- !app_assoc; reflexivity|].
  split; [|reflexivity].
  rewrite <- Hmem. destruct last; simpl; congruence.
Qed.
End HostPartial.

(** ** The host side on a platform where no runtime call fails *)

(** A block size and a warp width of the menus, the block at least one
    warp: the block is [WC] warps of [2^K] threads with [WC <= 2^K]. *)
Lemma menu_shape block_size ws :
  in_menu block_size_menu block_size = true ->
  in_menu warp_size_menu ws = true ->
  ws <= block_size ->
  exists K WC,
    Z.to_nat ws = (2 ^ K)%nat /\ Z.to_nat block_size = (WC * 2 ^ K)%nat
    /\ (1 <= K)%nat /\ (1 <= WC <= 2 ^ K)%nat.
Proof.
  intros Hb Hw Hle. apply in_menu_In in Hb. apply in_menu_In in Hw.
  unfold block_size_menu in Hb. unfold warp_size_menu in Hw. simpl in Hb, Hw.
  destruct Hw as [<-|[<-|[]]].
  - exists 5%nat.
    destruct Hb as [<-|[<-|[<-|[<-|[<-|[<-|[]]]]]]];
      [exists 1%nat|exists 2%nat|exists 4%nat|exists 8%nat|exists 16%nat|exists 32%nat];
      (split; [reflexivity|split; [reflexivity|simpl; lia]]).
  - exists 6%nat.
    destruct Hb as [<-|[<-|[<-|[<-|[<-|[<-|[]]]]]]]; try lia;
      [exists 1%nat|exists 2%nat|exists 4%nat|exists 8%nat|exists 16%nat];
      (split; [reflexivity|split; [reflexivity|simpl; lia]]).
Qed.

Lemma menu_items items_per_thread :
  in_menu items_per_thread_menu items_per_thread = true ->
  1 <= items_per_thread <= 16.
Proof.
  intros H. apply in_menu_In in H. unfold items_per_thread_menu in H. simpl in H.
  repeat (destruct H as [<-|H]; [lia|]). destruct H.
Qed.

Lemma menu_block block_size :
  in_menu block_size_menu block_size = true -> 32 <= block_size <= 1024.
Proof.
  intros H. apply in_menu_In in H. unfold block_size_menu in H. simpl in H.
  repeat (destruct H as [<-|H]; [lia|]). destruct H.
Qed.

Section HostTotal.
Context {T : Type}.
Variable op : T -> T -> T.
Variable zero_elem : T.
Variable hip_status : nat -> hipError_t.
Variable lds : nat -> nat -> nat -> T.
Hypothesis op_assoc : forall x y z, op x (op y z) = op (op x y) z.
Hypothesis op_comm : forall x y, op x y = op y x.
Hypothesis op_zero : forall x, op x zero_elem = x.
Hypothesis hip_ok : forall k, hip_status k = hipSuccess.

Local Abbreviation state := (@state T).
Local Abbreviation msum := (msum op zero_elem).
Local Abbreviation tick :=
  (fun d : @device T =>
     Device (memA d) (memB d) (S (calls d)) (launches d) (last_error d) (trace d)).

Lemma event_ok name o (d : @device T) :
  HIP_CHECK name (runtime_call hip_status) (o, d) = (Ret tt, (o, tick d)).
Proof. unfold HIP_CHECK, bind, runtime_call. rewrite hip_ok. reflexivity. Qed.

Lemma copy_in_ok name dst input o (d : @device T) :
  (length input <= length (mem d dst))%nat ->
  exists d',
    HIP_CHECK name (hipMemcpyHostToDevice hip_status dst input) (o, d) = (Ret tt, (o, d'))
    /\ mem d' dst = input ++ drop (length input) (mem d dst)
    /\ (forall p, p <> dst -> mem d' p = mem d p)
    /\ last_error d' = last_error d
    /\ launches d' = launches d.
Proof.
  intros Hlen. unfold HIP_CHECK, hipMemcpyHostToDevice, bind, runtime_call, gets, modify.
  rewrite hip_ok. cbn [fst snd].
  replace (mem (tick d) dst) with (mem d dst) by (destruct dst; reflexivity).
  destruct (Nat.leb_spec (length input) (length (mem d dst))); [|lia].
  eexists. split; [reflexivity|].
  destruct dst; simpl; (split; [reflexivity|]);
    (split; [intros [] Hp; first [congruence|reflexivity]|split; reflexivity]).
Qed.

(** One dispatch within the menus and the 32-bit index range: the launch
    runs, and the values it writes to the back buffer add up to the sum of
    the first [curr] elements of the front buffer. *)
Lemma dispatch_ok block_size items_per_thread curr o (d : @device T) :
  in_menu block_size_menu block_size = true ->
  in_menu warp_size_menu (warp_size o) = true ->
  in_menu items_per_thread_menu items_per_thread = true ->
  warp_size o <= block_size ->
  front o <> back o ->
  1 <= curr <= Z.of_nat (length (mem d (front o))) ->
  new_size (block_size * items_per_thread) curr <= Z.of_nat (length (mem d (back o))) ->
  curr + block_size * items_per_thread <= 2 ^ 31 ->
  exists outs d',
    kernel_dispatcher op zero_elem hip_status lds block_size items_per_thread
      (block_size * items_per_thread) curr (o, d) = (Ret tt, (o, d'))
    /\ mem d' (front o) = mem d (front o)
    /\ mem d' (back o) = outs ++ drop (length outs) (mem d (back o))
    /\ Z.of_nat (length outs) = new_size (block_size * items_per_thread) curr
    /\ msum outs = msum (take (Z.to_nat curr) (mem d (front o)))
    /\ last_error d' = last_error d.
Proof.
  intros Hb Hw Hi Hwb Hne Hcurr Hcap Hrange.
  destruct (menu_shape _ _ Hb Hw Hwb) as (K & WC & HW & HB & HK & HWC).
  assert (Hipt := menu_items _ Hi). assert (Hbs := menu_block _ Hb).
  set (factor := block_size * items_per_thread) in *.
  assert (Hfactor : 32 <= factor <= 16384) by (unfold factor; nia).
  assert (Hcover := new_size_cover factor curr ltac:(lia) ltac:(lia)).
  assert (Hgrid := new_size_bounds factor curr ltac:(lia) ltac:(lia)).
  assert (HF : Z.of_nat (WC * 2 ^ K) * Z.of_nat (Z.to_nat items_per_thread) = factor).
  { rewrite <- HB. rewrite !Z2Nat.id by lia. reflexivity. }
  destruct (launch_sum op zero_elem op_assoc op_comm op_zero K WC
              (Z.to_nat items_per_thread) (Z.to_nat (new_size factor curr))
              (mem d (front o)) (mem d (back o)) curr (lds (launches d)))
    as (outs & Hlaunch & Hlen & Hsum); try assumption; try lia.
  unfold kernel_dispatcher, static_switch.
  rewrite Hb, bind_gets. cbn [fst snd]. rewrite Hw, Hi.
  unfold hipLaunchKernelGGL, bind, runtime_call, gets, modify, id.
  rewrite hip_ok. cbn [fst snd].
  rewrite (u32_small (new_size factor curr)), (u32_small curr) by lia.
  replace (mem (tick d) (front o)) with (mem d (front o)) by (destruct (front o); reflexivity).
  replace (mem (tick d) (back o)) with (mem d (back o)) by (destruct (back o); reflexivity).
  rewrite HB, HW. cbn [launches]. rewrite Hlaunch.
  exists outs. eexists. split; [reflexivity|].
  rewrite Hlen. rewrite Z2Nat.id by lia.
  destruct (front o), (back o); try congruence; simpl; auto.
Qed.

Lemma last_error_ok name o (d : @device T) :
  last_error d = hipSuccess ->
  HIP_CHECK name hipGetLastError (o, d) = (Ret tt, (o, d)).
Proof.
  intros H. unfold HIP_CHECK, hipGetLastError, bind. rewrite H.
  destruct d; simpl in *; subst; reflexivity.
Qed.

(** The loop from a size above 1: it returns, and the first cell of the
    back buffer is the sum of the first [curr] elements the front buffer
    held. *)
Lemma pass_loop_ok block_size items_per_thread fuel :
  in_menu block_size_menu block_size = true ->
  in_menu items_per_thread_menu items_per_thread = true ->
  forall curr o (d : @device T),
  (Z.to_nat curr <= fuel)%nat ->
  in_menu warp_size_menu (warp_size o) = true ->
  warp_size o <= block_size ->
  front o <> back o ->
  last_error d = hipSuccess ->
  2 <= curr <= Z.of_nat (length (mem d (front o))) ->
  new_size (block_size * items_per_thread) curr <= Z.of_nat (length (mem d (back o))) ->
  curr + block_size * items_per_thread <= 2 ^ 31 ->
  exists o' d',
    pass_loop op zero_elem hip_status lds fuel block_size items_per_thread
      (block_size * items_per_thread) curr (o, d) = (Ret tt, (o', d'))
    /\ mem d' (back o') !! 0%nat = Some (msum (take (Z.to_nat curr) (mem d (front o))))
    /\ last_error d' = hipSuccess
    /\ origi_front o' = origi_front o /\ origi_back o' = origi_back o.
Proof.
  intros Hb Hi. assert (Hipt := menu_items _ Hi). assert (Hbs := menu_block _ Hb).
  set (factor := block_size * items_per_thread) in *.
  assert (Hfactor : 32 <= factor <= 16384) by (unfold factor; nia).
  induction fuel as [|fuel IH]; intros curr o d Hfuel Hw Hwb Hne Herr Hcurr Hcap Hrange;
    [lia|].
  cbn [pass_loop]. destruct (Z.ltb_spec 1 curr) as [_|]; [|lia].
  destruct (dispatch_ok block_size items_per_thread curr o d)
    as (outs & d1 & Hd & Hfront & Hback & Hlen & Hsum & Herr1); try assumption; [lia|].
  fold factor in Hd, Hlen. rewrite (bind_Ret _ _ _ _ _ Hd).
  rewrite (bind_Ret _ _ _ _ _ (last_error_ok _ o d1 ltac:(congruence))).
  assert (Hcover := new_size_cover factor curr ltac:(lia) ltac:(lia)).
  assert (Hgrid := new_size_bounds factor curr ltac:(lia) ltac:(lia)).
  assert (Hshrink := new_size_shrinks factor curr ltac:(lia) ltac:(lia)).
  assert (Htake : take (length outs) (mem d1 (back o)) = outs).
  { rewrite Hback. apply take_app_length. }
  assert (Hlenb : length (mem d1 (back o)) = length (mem d (back o))).
  { rewrite Hback, length_app, length_drop. lia. }
  destruct (Z.ltb_spec 1 (new_size factor curr)) as [Hmore|Hlast].
  - unfold swap at 1. unfold bind at 1, modify at 1.
    destruct (IH (new_size factor curr)
                (V9 (back o) (front o) (origi_front o) (origi_back o) (warp_size o)) d1)
      as (o' & d' & Hloop & Hres & Herr' & Hof & Hob); cbn [front back warp_size];
      try assumption; try lia; try congruence.
    + rewrite Hfront.
      assert (H2 := new_size_bounds factor (new_size factor curr) ltac:(lia) ltac:(lia)).
      lia.
    + exists o', d'. split; [exact Hloop|]. cbn [front back] in Hres.
      split; [|auto]. rewrite Hres. f_equal. rewrite <- Hsum, <- Htake.
      do 2 f_equal. lia.
  - unfold bind at 1, ret at 1.
    assert (Hone : new_size factor curr = 1) by lia.
    assert (Hstop : forall f, pass_loop op zero_elem hip_status lds f block_size
                      items_per_thread factor (new_size factor curr) (o, d1)
                    = (Ret tt, (o, d1))).
    { intros f. rewrite Hone. destruct f; reflexivity. }
    rewrite Hstop. exists o, d1. split; [reflexivity|].
    split; [|split; [congruence|auto]].
    rewrite Hback. destruct outs as [|v [|v' outs]]; simpl in Hlen; try lia.
    rewrite <- Hsum. simpl. f_equal. symmetry. apply op_zero.
Qed.

Lemma mem_tick (d : @device T) p : mem (tick d) p = mem d p.
Proof. destruct p; reflexivity. Qed.

Lemma copy_out_ok src o (d : @device T) v :
  mem d src !! 0%nat = Some v ->
  hipMemcpyDeviceToHost hip_status src (o, d)
  = (Ret (hipSuccess, Some v), (o, record (CopyOut src) (tick d))).
Proof.
  intros Hv. unfold hipMemcpyDeviceToHost, bind, runtime_call, gets, modify, ret.
  rewrite hip_ok. cbn [fst snd]. rewrite mem_tick, Hv. reflexivity.
Qed.

(** The call on an input of at least two elements that fits the buffers
    and the 32-bit index range, with a configuration of the menus whose
    block holds at least one warp: it returns the sum of the input. *)
Lemma operator_call_ok fuel input block_size items_per_thread o (d : @device T) :
  in_menu block_size_menu block_size = true ->
  in_menu items_per_thread_menu items_per_thread = true ->
  in_menu warp_size_menu (warp_size o) = true ->
  warp_size o <= block_size ->
  front o <> back o ->
  last_error d = hipSuccess ->
  (2 <= length input <= fuel)%nat ->
  (length input <= length (mem d (front o)))%nat ->
  new_size (block_size * items_per_thread) (Z.of_nat (length input))
    <= Z.of_nat (length (mem d (back o))) ->
  Z.of_nat (length input) + block_size * items_per_thread <= 2 ^ 31 ->
  exists s',
    operator_call op zero_elem hip_status lds fuel input block_size items_per_thread (o, d)
    = (Ret (msum input), s')
    /\ front s'.1 = origi_front o /\ back s'.1 = origi_back o.
Proof.
  intros Hb Hi Hw Hwb Hne Herr Hn Hfit Hcap Hrange.
  assert (Hipt := menu_items _ Hi). assert (Hbs := menu_block _ Hb).
  unfold operator_call. rewrite bind_gets. cbn [fst snd].
  rewrite (size_t_small (block_size * items_per_thread)) by nia.
  destruct (copy_in_ok "hipMemcpy" (front o) input o d Hfit)
    as (d1 & Hcopy & Hfront1 & Hother1 & Herr1 & _).
  rewrite (bind_Ret _ _ _ _ _ Hcopy).
  rewrite (bind_Ret _ _ _ _ _ (event_ok _ _ _)).
  rewrite (bind_Ret _ _ _ _ _ (event_ok _ _ _)).
  rewrite (bind_Ret _ _ _ _ _ (event_ok _ _ _)).
  set (d4 := tick (tick (tick d1))).
  assert (Hmem4 : forall p, mem d4 p = mem d1 p) by (intros []; reflexivity).
  destruct (pass_loop_ok block_size items_per_thread fuel Hb Hi
              (Z.of_nat (length input)) o d4)
    as (o5 & d5 & Hloop & Hres & Herr5 & Hof & Hob); try assumption; try lia.
  { unfold d4. simpl. congruence. }
  { rewrite Hmem4, Hfront1, length_app, length_drop. lia. }
  { rewrite Hmem4, Hother1 by congruence. exact Hcap. }
  rewrite (bind_Ret _ _ _ _ _ Hloop).
  rewrite (bind_Ret _ _ _ _ _ (event_ok _ _ _)).
  rewrite (bind_Ret _ _ _ _ _ (event_ok _ _ _)).
  rewrite bind_gets. cbn [fst snd].
  assert (Hres' : mem (tick (tick d5)) (back o5) !! 0%nat
                   = Some (msum (take (Z.to_nat (Z.of_nat (length input)))
                                   (mem d4 (front o)))))
    by (rewrite !mem_tick; exact Hres).
  rewrite (bind_Ret _ _ _ _ _ (copy_out_ok _ o5 _ _ Hres')).
  cbn [fst snd]. unfold HIP_CHECK at 1. unfold bind at 1 2, ret at 1 2.
  rewrite (bind_Ret _ _ _ _ _ (event_ok _ _ _)).
  rewrite (bind_Ret _ _ _ _ _ (event_ok _ _ _)).
  rewrite (bind_Ret _ _ _ _ _ (event_ok _ _ _)).
  unfold restore at 1. unfold bind at 1, modify at 1. unfold ret.
  eexists. split.
  { apply (f_equal2 pair); [f_equal|reflexivity].
    rewrite Hmem4, Hfront1, Nat2Z.id, take_app_length. reflexivity. }
  cbn [fst snd front back]. split; congruence.
Qed.

(** With an input of at least two elements and a value missing from a
    menu, the first dispatch stops the call before any launch. *)
Lemma operator_call_unsupported fuel input block_size items_per_thread o (d : @device T) :
  in_menu block_size_menu block_size = false
  \/ in_menu warp_size_menu (warp_size o) = false
  \/ in_menu items_per_thread_menu items_per_thread = false ->
  (2 <= length input)%nat -> (1 <= fuel)%nat ->
  (length input <= length (mem d (front o)))%nat ->
  exists d',
    operator_call op zero_elem hip_status lds fuel input block_size items_per_thread (o, d)
    = (Raise UnsupportedConfiguration, (o, d'))
    /\ launches d' = launches d
    /\ trace d' = trace d ++ [CopyIn (front o) (length input)]
    /\ (forall p, p <> front o -> mem d' p = mem d p).
Proof.
  intros Hmenu Hn Hfuel Hfit.
  unfold operator_call. rewrite bind_gets. cbn [fst snd].
  unfold HIP_CHECK at 1, hipMemcpyHostToDevice, runtime_call at 1.
  unfold bind at 1 2 3 4 5. rewrite hip_ok. unfold gets at 1, modify at 1. cbn [fst snd].
  rewrite mem_tick.
  destruct (Nat.leb_spec (length input) (length (mem d (front o)))); [|lia].
  unfold ret at 1 2.
  rewrite (bind_Ret _ _ _ _ _ (event_ok _ _ _)).
  rewrite (bind_Ret _ _ _ _ _ (event_ok _ _ _)).
  rewrite (bind_Ret _ _ _ _ _ (event_ok _ _ _)).
  destruct fuel as [|fuel]; [lia|]. cbn [pass_loop].
  destruct (Z.ltb_spec 1 (Z.of_nat (length input))); [|lia].
  match goal with
  | |- exists d', bind (bind ?disp ?k1) ?k2 ?s = _ /\ _ =>
      assert (Hd : disp s = (Raise UnsupportedConfiguration, s))
  end.
  { unfold kernel_dispatcher, static_switch.
    destruct (in_menu block_size_menu block_size); [|reflexivity].
    rewrite bind_gets. cbn [fst snd].
    destruct (in_menu warp_size_menu (warp_size o)); [|reflexivity].
    destruct (in_menu items_per_thread_menu items_per_thread); [|reflexivity].
    destruct Hmenu as [Hm|[Hm|Hm]]; discriminate Hm. }
  rewrite (bind_Raise _ _ _ _ _ (bind_Raise _ _ _ _ _ Hd)).
  eexists. split; [reflexivity|].
  destruct (front o); cbn; (split; [reflexivity|]); (split; [reflexivity|]);
    intros [] Hp; first [congruence|reflexivity].
Qed.
End HostTotal.

(** ** Termination of the pass loop *)

Ltac fuelled_step :=
  first
    [ apply fuelled_ret | apply fuelled_raise | apply fuelled_gets
    | apply fuelled_modify
    | apply fuelled_static_switch; intros
    | apply fuelled_bind; [|intros]
    | match goal with
      | |- fuelled (match ?x with _ => _ end) => destruct x
      | |- fuelled (let '(_, _) := ?x in _) => destruct x
      end ].

Section Fuel.
Context {T : Type}.
Variable op : T -> T -> T.
Variable zero_elem : T.
Variable hip_status : nat -> hipError_t.
Variable lds : nat -> nat -> nat -> T.

Lemma fuelled_runtime_call : fuelled (@runtime_call T hip_status).
Proof. intros [o d]. discriminate. Qed.

Lemma fuelled_hipGetLastError : fuelled (@hipGetLastError T).
Proof. intros [o d]. discriminate. Qed.

Lemma fuelled_HIP_CHECK name (call : M (@state T) hipError_t) :
  fuelled call -> fuelled (HIP_CHECK name call).
Proof. intros H. unfold HIP_CHECK. repeat fuelled_step. exact H. Qed.

Lemma fuelled_copy_in dst (input : list T) :
  fuelled (hipMemcpyHostToDevice hip_status dst input).
Proof.
  unfold hipMemcpyHostToDevice.
  apply fuelled_bind; [apply fuelled_runtime_call|]. intros e.
  repeat fuelled_step.
Qed.

Lemma fuelled_copy_out src : fuelled (@hipMemcpyDeviceToHost T hip_status src).
Proof.
  unfold hipMemcpyDeviceToHost.
  apply fuelled_bind; [apply fuelled_runtime_call|]. intros e.
  repeat fuelled_step.
Qed.

Lemma fuelled_launch B W IPT grid step :
  fuelled (hipLaunchKernelGGL op zero_elem hip_status lds B W IPT grid step).
Proof.
  unfold hipLaunchKernelGGL.
  apply fuelled_bind; [apply fuelled_runtime_call|]. intros e.
  repeat fuelled_step.
Qed.

Lemma fuelled_dispatcher block_size items_per_thread factor step :
  fuelled (kernel_dispatcher op zero_elem hip_status lds block_size items_per_thread
             factor step).
Proof.
  unfold kernel_dispatcher.
  apply fuelled_static_switch. intros B. apply fuelled_bind; [apply fuelled_gets|].
  intros ws. apply fuelled_static_switch. intros W.
  apply fuelled_static_switch. intros IPT. apply fuelled_launch.
Qed.

(** With a factor of at least 2 the size shrinks at every pass, so fuel
    for as many passes as the size has elements is never used up. *)
Lemma fuelled_pass_loop block_size items_per_thread factor fuel :
  2 <= factor ->
  forall curr, 0 <= curr < 2 ^ 64 -> (Z.to_nat curr <= fuel)%nat ->
  fuelled (pass_loop op zero_elem hip_status lds fuel block_size items_per_thread
             factor curr).
Proof.
  intros Hf. induction fuel as [|fuel IH]; intros curr Hcurr Hfuel.
  - simpl. destruct (Z.ltb_spec 1 curr); [lia|apply fuelled_ret].
  - simpl. destruct (Z.ltb_spec 1 curr) as [Hc|Hc]; [|apply fuelled_ret].
    apply fuelled_bind; [apply fuelled_dispatcher|]. intros u.
    apply fuelled_bind; [apply fuelled_HIP_CHECK, fuelled_hipGetLastError|]. intros u'.
    apply fuelled_bind; [destruct (1 <? new_size factor curr); repeat fuelled_step|].
    intros u''.
    assert (Hs := new_size_shrinks factor curr Hf ltac:(lia)).
    assert (Hb := new_size_bounds factor curr ltac:(lia) ltac:(lia)).
    apply IH; lia.
Qed.

Lemma fuelled_operator_call fuel (input : list T) block_size items_per_thread :
  2 <= size_t (block_size * items_per_thread) ->
  Z.of_nat (length input) < 2 ^ 64 -> (length input <= fuel)%nat ->
  fuelled (operator_call op zero_elem hip_status lds fuel input block_size
             items_per_thread).
Proof.
  intros Hf Hn Hfuel. unfold operator_call.
  apply fuelled_bind; [apply fuelled_gets|]. intros f.
  apply fuelled_bind; [apply fuelled_HIP_CHECK, fuelled_copy_in|]. intros u1.
  do 3 (apply fuelled_bind; [apply fuelled_HIP_CHECK, fuelled_runtime_call|]; intros ?).
  apply fuelled_bind; [apply fuelled_pass_loop; [exact Hf|lia|lia]|]. intros u5.
  do 2 (apply fuelled_bind; [apply fuelled_HIP_CHECK, fuelled_runtime_call|]; intros ?).
  apply fuelled_bind; [apply fuelled_gets|]. intros b.
  apply fuelled_bind; [apply fuelled_copy_out|]. intros r.
  apply fuelled_bind; [apply fuelled_HIP_CHECK, fuelled_ret|]. intros u9.
  do 3 (apply fuelled_bind; [apply fuelled_HIP_CHECK, fuelled_runtime_call|]; intros ?).
  apply fuelled_bind; [apply fuelled_modify|]. intros u13.
  destruct (r.2); [apply fuelled_ret|apply fuelled_raise].
Qed.
End Fuel.

(** ** The constructor *)

Lemma foldl_min_spec x l :
  let m := foldl Z.min x l in
  (m = x \/ In m l) /\ m <= x /\ (forall y, In y l -> m <= y).
Proof.
  revert x. induction l as [|a l IH]; intros x; simpl.
  - split; [left; reflexivity|]. split; [lia|]. intros y [].
  - specialize (IH (Z.min x a)). cbv zeta in IH.
    set (m := foldl Z.min (Z.min x a) l) in *.
    destruct IH as ([Hm|Hm] & Hle & Hall).
    + split; [|split; [lia|intros y [<-|Hy]; [lia|apply Hall, Hy]]].
      destruct (Z.min_spec x a) as [[_ E]|[_ E]]; rewrite E in Hm;
        [left; exact Hm|right; left; symmetry; exact Hm].
    + split; [auto|]. split; [lia|intros y [<-|Hy]; [lia|apply Hall, Hy]].
Qed.

Lemma foldl_max_spec x l :
  let m := foldl Z.max x l in
  (m = x \/ In m l) /\ x <= m /\ (forall y, In y l -> y <= m).
Proof.
  revert x. induction l as [|a l IH]; intros x; simpl.
  - split; [left; reflexivity|]. split; [lia|]. intros y [].
  - specialize (IH (Z.max x a)). cbv zeta in IH.
    set (m := foldl Z.max (Z.max x a) l) in *.
    destruct IH as ([Hm|Hm] & Hle & Hall).
    + split; [|split; [lia|intros y [<-|Hy]; [lia|apply Hall, Hy]]].
      destruct (Z.max_spec x a) as [[_ E]|[_ E]]; rewrite E in Hm;
        [right; left; symmetry; exact Hm|left; exact Hm].
    + split; [auto|]. split; [lia|intros y [<-|Hy]; [lia|apply Hall, Hy]].
Qed.

Lemma min_element_spec l m :
  min_element l = Some m -> In m l /\ forall y, In y l -> m <= y.
Proof.
  destruct l as [|x l]; [discriminate|]. intros E. injection E as <-.
  destruct (foldl_min_spec x l) as (Hin & Hle & Hall).
  split; [destruct Hin as [->|Hin]; [left; reflexivity|right; exact Hin]|].
  intros y [<-|Hy]; [exact Hle|apply Hall, Hy].
Qed.

Lemma max_element_spec l m :
  max_element l = Some m -> In m l /\ forall y, In y l -> y <= m.
Proof.
  destruct l as [|x l]; [discriminate|]. intros E. injection E as <-.
  destruct (foldl_max_spec x l) as (Hin & Hle & Hall).
  split; [destruct Hin as [->|Hin]; [left; reflexivity|right; exact Hin]|].
  intros y [<-|Hy]; [exact Hle|apply Hall, Hy].
Qed.

Section Constructor.
Context {T : Type}.
Variable hip_status : nat -> hipError_t.
Variable uninit : ptr -> nat -> T.
Variable sizeof_T : Z.
Hypothesis hip_ok : forall k, hip_status k = hipSuccess.

(** On non-empty spans the constructor returns, with as many cells in
    each buffer as the wrapped byte count of its request holds. *)
Lemma v9_new_bytes input_sizes block_sizes ws smallest_factor largest_size :
  min_element block_sizes = Some smallest_factor ->
  max_element input_sizes = Some largest_size ->
  exists d,
    v9_new hip_status uninit sizeof_T input_sizes block_sizes ws blank
    = (Ret tt, (V9 BufA BufB BufA BufB ws, d))
    /\ length (memA d) = Z.to_nat (size_t (sizeof_T * largest_size) / sizeof_T)
    /\ length (memB d)
       = Z.to_nat (size_t (new_size smallest_factor largest_size * sizeof_T) / sizeof_T)
    /\ last_error d = hipSuccess.
Proof.
  intros Hmin Hmax. unfold v9_new. rewrite Hmin, Hmax.
  unfold HIP_CHECK, hipMalloc, bind, runtime_call, modify, ret, blank.
  generalize (size_t (sizeof_T * largest_size) / sizeof_T).
  generalize (size_t (new_size smallest_factor largest_size * sizeof_T) / sizeof_T).
  intros cB cA.
  rewrite ?hip_ok. cbn. rewrite ?hip_ok. cbn. rewrite ?hip_ok. cbn.
  rewrite ?hip_ok. cbn.
  eexists. split; [reflexivity|]. cbn.
  rewrite !length_map, !length_seq. auto.
Qed.

(** When the byte count of the largest input fits [std::size_t], the
    front buffer has [largest_size] cells and the back buffer
    [new_size smallest_factor largest_size] cells. *)
Lemma v9_new_ok input_sizes block_sizes ws smallest_factor largest_size :
  1 <= sizeof_T -> 1 <= smallest_factor ->
  0 <= largest_size -> sizeof_T * largest_size < 2 ^ 64 ->
  min_element block_sizes = Some smallest_factor ->
  max_element input_sizes = Some largest_size ->
  exists d,
    v9_new hip_status uninit sizeof_T input_sizes block_sizes ws blank
    = (Ret tt, (V9 BufA BufB BufA BufB ws, d))
    /\ length (memA d) = Z.to_nat largest_size
    /\ length (memB d) = Z.to_nat (new_size smallest_factor largest_size)
    /\ last_error d = hipSuccess.
Proof.
  intros Hsz Hsm Hl Hfit Hmin Hmax.
  destruct (v9_new_bytes input_sizes block_sizes ws smallest_factor largest_size
              Hmin Hmax) as (d & E & HA & HB & Hle).
  exists d. split; [exact E|].
  assert (Hl64 : 0 <= largest_size < 2 ^ 64) by nia.
  assert (Hns : 0 <= new_size smallest_factor largest_size <= largest_size).
  { destruct (Z.eq_dec largest_size 0) as [->|Hnz].
    - rewrite new_size_zero by lia. lia.
    - pose proof (new_size_bounds smallest_factor largest_size Hsm ltac:(lia)). lia. }
  rewrite HA, HB.
  rewrite (size_t_small (sizeof_T * largest_size)) by nia.
  rewrite (size_t_small (new_size smallest_factor largest_size * sizeof_T)) by nia.
  rewrite (Z.mul_comm sizeof_T largest_size), !Z.div_mul by lia.
  auto.
Qed.
End Constructor.

(** * Main theorems *)

(** ** C1: the result of a call *)

(** C1 (as amended): for every input of length n with 2 <= n that fits the
    two buffers and the signed 32-bit index range of the kernel
    (n + block_size * items_per_thread <= 2^31), every associative and
    commutative operator with a true neutral element, every block size and
    items-per-thread of the menus on a device whose warp width is in its
    menu and not above the block size, and a platform on which no runtime
    call fails, the call returns, and the scalar it returns is the
    sequential left-to-right fold of the input. *)
Theorem C1_call_returns_sequential_fold {T : Type} (op : T -> T -> T) (zero_elem : T)
    (hip_status : nat -> hipError_t) (lds : nat -> nat -> nat -> T)
    (fuel : nat) (input : list T) (block_size items_per_thread : Z) (s : @state T) :
  (forall x y z, op x (op y z) = op (op x y) z) ->
  (forall x y, op x y = op y x) ->
  (forall x, op x zero_elem = x) ->
  (forall k, hip_status k = hipSuccess) ->
  in_menu block_size_menu block_size = true ->
  in_menu items_per_thread_menu items_per_thread = true ->
  in_menu warp_size_menu (warp_size s.1) = true ->
  warp_size s.1 <= block_size ->
  front s.1 <> back s.1 ->
  last_error s.2 = hipSuccess ->
  (2 <= length input <= fuel)%nat ->
  (length input <= length (mem s.2 (front s.1)))%nat ->
  new_size (block_size * items_per_thread) (Z.of_nat (length input))
    <= Z.of_nat (length (mem s.2 (back s.1))) ->
  Z.of_nat (length input) + block_size * items_per_thread <= 2 ^ 31 ->
  exists r s',
    operator_call op zero_elem hip_status lds fuel input block_size items_per_thread s
    = (Ret r, s')
    /\ sequential_fold op input = Some r.
Proof.
  intros Hassoc Hcomm Hzero Hok Hb Hi Hw Hwb Hne Herr Hn Hfit Hcap Hrange.
  destruct s as [o d]. cbn [fst snd] in *.
  destruct (operator_call_ok op zero_elem hip_status lds Hassoc Hcomm Hzero Hok
              fuel input block_size items_per_thread o d)
    as (s' & Hcall & _); try assumption.
  exists (msum op zero_elem input), s'. split; [exact Hcall|].
  destruct input as [|x l]; [simpl in Hn; lia|].
  apply sequential_fold_msum; assumption.
Qed.

Lemma C1_call_returns_sequential_fold_witness :
  exists r s',
    sum_call all_ok (one_to 100) 32 3 (sum_engine 32 [100] [32]) = (Ret r, s')
    /\ sequential_fold Z.add (one_to 100) = Some r.
Proof.
  apply (C1_call_returns_sequential_fold Z.add 0 all_ok lds77 (length (one_to 100))
           (one_to 100) 32 3 (sum_engine 32 [100] [32])).
  - intros x y z. lia.
  - intros x y. lia.
  - intros x. lia.
  - intros k. reflexivity.
  - reflexivity.
  - reflexivity.
  - reflexivity.
  - vm_compute. discriminate.
  - vm_compute. discriminate.
  - reflexivity.
  - vm_compute. lia.
  - vm_compute. lia.
  - vm_compute. discriminate.
  - vm_compute. discriminate.
Defined.

(** C1 fails as stated: on a device with 64-wide warps a block of 32
    threads has no whole warp, the kernel's reduction loop runs zero times
    and thread 0 stores its own element: the call on [1..8] returns 1, the
    sequential fold is 36. *)
Lemma C1_counterexample_block_below_warp :
  in_menu block_size_menu 32 = true
  /\ in_menu items_per_thread_menu 1 = true
  /\ in_menu warp_size_menu 64 = true
  /\ (sum_call all_ok (one_to 8) 32 1 (sum_engine 64 [8] [32])).1 = Ret 1
  /\ sequential_fold Z.add (one_to 8) = Some 36.
Proof. vm_compute. repeat split. Qed.

(** ** C2: a single-element input *)

(** C2 (the code at the failing input): for the single-element input [5]
    the loop runs zero passes and no kernel is launched, and the scalar
    returned is the first cell of the back buffer, which no pass has
    written: 99 from a fresh allocation, or the 36 a previous call on
    [1..8] left there. The input element 5 stays in the front buffer. *)
Theorem C2_single_element_reads_unwritten_back :
  let fresh := sum_engine 32 [8] [32] in
  let used := (sum_call all_ok (one_to 8) 32 1 fresh).2 in
  (sum_call all_ok [5] 32 1 fresh).1 = Ret 99
  /\ launches (sum_call all_ok [5] 32 1 fresh).2.2 = launches fresh.2
  /\ (sum_call all_ok (one_to 8) 32 1 fresh).1 = Ret 36
  /\ (sum_call all_ok [5] 32 1 used).1 = Ret 36
  /\ launches (sum_call all_ok [5] 32 1 used).2.2 = launches used.2
  /\ mem (sum_call all_ok [5] 32 1 used).2.2 BufA !! 0%nat = Some 5.
Proof. vm_compute. repeat split. Qed.

(** ** C4: the pass loop and the buffer swap *)

Lemma pass_chain_last factor block curr f b passes last_back :
  pass_chain factor block curr f b passes last_back ->
  forall src dst grid bl size,
    last passes = Some (Launch src dst grid bl size) -> dst = last_back.
Proof.
  induction 1 as [curr f b Hc|curr f b Hc Hn|curr f b passes lb Hc Hn Hchain IH];
    intros src dst grid bl size Hlast.
  - discriminate Hlast.
  - simpl in Hlast. injection Hlast as _ <- _ _ _. reflexivity.
  - destruct passes as [|e passes]; [inversion Hchain; lia|].
    rewrite last_cons_cons in Hlast. eapply IH. exact Hlast.
Qed.

(** C4: in every call that returns, the host loop has issued one pass
    while the current size was above 1 and exchanged front and back after
    a pass only when another pass followed (the launches are the pass
    chain from the input size); the last pass wrote the buffer that ends as
    the back buffer, and the returned scalar is the first cell of that
    buffer, read by the device-to-host copy that closes the trace. *)
Theorem C4_pass_loop_follows_plan {T : Type} (op : T -> T -> T) (zero_elem : T)
    (hip_status : nat -> hipError_t) (lds : nat -> nat -> nat -> T)
    (fuel : nat) (input : list T) (block_size items_per_thread : Z)
    (s s' : @state T) (r : T) :
  operator_call op zero_elem hip_status lds fuel input block_size items_per_thread s
  = (Ret r, s') ->
  exists passes last_back,
    pass_chain (size_t (block_size * items_per_thread)) block_size
      (Z.of_nat (length input)) (front s.1) (back s.1) passes last_back
    /\ trace s'.2
       = trace s.2 ++ [CopyIn (front s.1) (length input)] ++ passes
           ++ [CopyOut last_back]
    /\ mem s'.2 last_back !! 0%nat = Some r
    /\ (forall src dst grid bl size,
          last passes = Some (Launch src dst grid bl size) -> dst = last_back).
Proof.
  intros E.
  destruct (operator_call_returned op zero_elem hip_status lds fuel input block_size
              items_per_thread s s' r E) as (passes & lb & Hchain & Htrace & Hmem & _).
  exists passes, lb. repeat split; try assumption.
  exact (pass_chain_last _ _ _ _ _ _ _ Hchain).
Qed.

Lemma C4_pass_loop_follows_plan_witness :
  exists passes last_back,
    pass_chain (size_t (32 * 1)) 32 (Z.of_nat (length (one_to 100)))
      BufA BufB passes last_back
    /\ trace (sum_call all_ok (one_to 100) 32 1 (sum_engine 32 [100] [32])).2.2
       = [] ++ [CopyIn BufA (length (one_to 100))] ++ passes ++ [CopyOut last_back]
    /\ mem (sum_call all_ok (one_to 100) 32 1 (sum_engine 32 [100] [32])).2.2
         last_back !! 0%nat = Some 5050
    /\ (forall src dst grid bl size,
          last passes = Some (Launch src dst grid bl size) -> dst = last_back).
Proof.
  apply (C4_pass_loop_follows_plan Z.add 0 all_ok lds77 (length (one_to 100))
           (one_to 100) 32 1 (sum_engine 32 [100] [32])
           (sum_call all_ok (one_to 100) 32 1 (sum_engine 32 [100] [32])).2 5050).
  vm_compute. reflexivity.
Defined.

(** ** C5: the pointers after a call *)

(** C5 (as amended): after every call that returns, the front and back
    pointers are the original buffers again, and the original pointers are
    unchanged. *)
Theorem C5_pointers_restored_after_return {T : Type} (op : T -> T -> T) (zero_elem : T)
    (hip_status : nat -> hipError_t) (lds : nat -> nat -> nat -> T)
    (fuel : nat) (input : list T) (block_size items_per_thread : Z)
    (s s' : @state T) (r : T) :
  operator_call op zero_elem hip_status lds fuel input block_size items_per_thread s
  = (Ret r, s') ->
  front s'.1 = origi_front s.1 /\ back s'.1 = origi_back s.1
  /\ origi_front s'.1 = origi_front s.1 /\ origi_back s'.1 = origi_back s.1.
Proof.
  intros E.
  destruct (operator_call_returned op zero_elem hip_status lds fuel input block_size
              items_per_thread s s' r E) as (passes & lb & _ & _ & _ & Hobj).
  rewrite Hobj. repeat split.
Qed.

Lemma C5_pointers_restored_after_return_witness :
  let s' := (sum_call all_ok (one_to 100) 32 1 (sum_engine 32 [100] [32])).2 in
  front s'.1 = BufA /\ back s'.1 = BufB
  /\ origi_front s'.1 = BufA /\ origi_back s'.1 = BufB.
Proof.
  apply (C5_pointers_restored_after_return Z.add 0 all_ok lds77 (length (one_to 100))
           (one_to 100) 32 1 (sum_engine 32 [100] [32])
           (sum_call all_ok (one_to 100) 32 1 (sum_engine 32 [100] [32])).2 5050).
  vm_compute. reflexivity.
Defined.

(** C5 fails as stated: when the second launch of a call on 33 elements
    is rejected, the call stops with the error of "hipKernelLaunchGGL"
    after the first swap, and the object is left with front and back
    exchanged. *)
Lemma C5_counterexample_failed_call_keeps_swap :
  let run := sum_call (fails_at 9) (one_to 33) 32 1 (sum_engine 32 [33] [32]) in
  run.1 = Raise (HipError "hipKernelLaunchGGL" (hipErrorCode 1))
  /\ origi_front run.2.1 = BufA /\ origi_back run.2.1 = BufB
  /\ front run.2.1 = BufB /\ back run.2.1 = BufA.
Proof. vm_compute. repeat split. Qed.

(** ** C6: the bounds-safe read *)

(** C6 (as amended): for a thread whose ItemsPerThread positions, from
    its global offset on, lie within the signed 32-bit index range of the
    kernel (offset + ItemsPerThread <= 2^31), the read yields [front[p]]
    at every position [p] below the valid length and the neutral element
    at every other position; the same read on a buffer that ends at the
    valid length succeeds with the same values, so no position at or
    beyond the valid length is dereferenced. *)
Theorem C6_read_global_safe_in_range {T : Type} (zero_elem : T)
    (BlockSize ItemsPerThread bid tid : nat) (front : list T) (front_size : Z) :
  let offset := (bid * (BlockSize * ItemsPerThread) + tid * ItemsPerThread)%nat in
  (1 <= ItemsPerThread)%nat ->
  Z.of_nat offset + Z.of_nat ItemsPerThread <= 2 ^ 31 ->
  0 <= front_size <= Z.of_nat (length front) ->
  exists vals,
    read_global_safe zero_elem ItemsPerThread front front_size
      (gid BlockSize ItemsPerThread bid tid) = Some vals
    /\ length vals = ItemsPerThread
    /\ (forall k, (k < ItemsPerThread)%nat ->
          vals !! k = if Z.of_nat (offset + k) <? front_size
                      then front !! (offset + k)%nat
                      else Some zero_elem)
    /\ read_global_safe zero_elem ItemsPerThread (take (Z.to_nat front_size) front)
         front_size (gid BlockSize ItemsPerThread bid tid) = Some vals.
Proof.
  intros offset Hipt Hoff Hsize.
  rewrite gid_wrapped. fold offset. rewrite i32_small by lia.
  exists (map (fun p => default zero_elem (take (Z.to_nat front_size) front !! p))
            (seq offset ItemsPerThread)).
  split; [|split; [|split]].
  - rewrite read_global_safe_padded by lia. rewrite Nat2Z.id. reflexivity.
  - rewrite length_map, length_seq. reflexivity.
  - intros k Hk. rewrite list_lookup_fmap, lookup_seq_lt by lia. simpl.
    destruct (Z.ltb_spec (Z.of_nat (offset + k)) front_size) as [Hlt|Hge].
    + rewrite lookup_take_lt by lia.
      destruct (lookup_lt_is_Some_2 front (offset + k) ltac:(lia)) as [x ->].
      reflexivity.
    + rewrite lookup_take_ge by lia. reflexivity.
  - rewrite read_global_safe_padded; [|lia|lia|rewrite length_take; lia].
    rewrite Nat2Z.id, take_take, Nat.min_id. reflexivity.
Qed.

Lemma C6_read_global_safe_in_range_witness :
  exists vals,
    read_global_safe 0 3 (one_to 100) 100 (gid 32 3 1 1) = Some vals
    /\ length vals = 3%nat
    /\ (forall k, (k < 3)%nat ->
          vals !! k = if Z.of_nat ((1 * (32 * 3) + 1 * 3)%nat + k) <? 100
                      then one_to 100 !! ((1 * (32 * 3) + 1 * 3)%nat + k)%nat
                      else Some 0)
    /\ read_global_safe 0 3 (take (Z.to_nat 100) (one_to 100)) 100 (gid 32 3 1 1)
       = Some vals.
Proof.
  apply (C6_read_global_safe_in_range 0 32 3 1 1 (one_to 100) 100).
  - lia.
  - vm_compute. discriminate.
  - vm_compute. split; discriminate.
Defined.

(** C6 fails as stated: in a pass over 2^31 + 16 elements with blocks of
    1024 threads and 16 items per thread, thread 0 of block 131072 starts
    at element 2^31, below the valid length; its [gid], an [int32_t], is
    -2^31, the unsigned comparisons accept the position and the subscript
    [front[gid]] lies before the buffer. *)
Lemma C6_counterexample_offset_above_int32 :
  Z.of_nat (Z.to_nat 131072) * (1024 * 16) + 0 * 16 = 2 ^ 31
  /\ 2 ^ 31 < 2 ^ 31 + 16 <= Z.of_nat (length front_above_int32)
  /\ gid 1024 16 (Z.to_nat 131072) 0 = - 2 ^ 31
  /\ read_global_safe 0 16 front_above_int32 (2 ^ 31 + 16)
       (gid 1024 16 (Z.to_nat 131072) 0) = None.
Proof.
  assert (Hgid : gid 1024 16 (Z.to_nat 131072) 0 = - 2 ^ 31) by (vm_compute; reflexivity).
  split; [vm_compute; reflexivity|]. split.
  { unfold front_above_int32. rewrite length_replicate, Z2Nat.id by lia. lia. }
  split; [exact Hgid|]. rewrite Hgid. unfold read_global_safe.
  replace (u32 (u32 (- 2 ^ 31) + Z.of_nat 16) <? 2 ^ 31 + 16) with false
    by (vm_compute; reflexivity).
  apply mapM_None. apply Exists_exists. exists 0. split.
  - apply elem_of_seqZ. lia.
  - replace (u32 (i32 (- 2 ^ 31 + 0)) <? 2 ^ 31 + 16) with true
      by (vm_compute; reflexivity).
    apply load_negative. vm_compute. reflexivity.
Qed.

(** ** C7: a configuration outside the menus *)

(** C7 (as amended): for every call on an input of at least two elements
    where the block size, the warp width or the items-per-thread is not in
    its menu, on a platform where no runtime call fails, the first dispatch
    reports the unsupported configuration: the call stops with that error
    after the input was copied to the front buffer, no kernel is launched,
    the other buffer is untouched and the object is unchanged. *)
Theorem C7_unsupported_configuration_reported {T : Type} (op : T -> T -> T)
    (zero_elem : T) (hip_status : nat -> hipError_t) (lds : nat -> nat -> nat -> T)
    (fuel : nat) (input : list T) (block_size items_per_thread : Z) (s : @state T) :
  (forall k, hip_status k = hipSuccess) ->
  in_menu block_size_menu block_size = false
  \/ in_menu warp_size_menu (warp_size s.1) = false
  \/ in_menu items_per_thread_menu items_per_thread = false ->
  (2 <= length input)%nat -> (1 <= fuel)%nat ->
  (length input <= length (mem s.2 (front s.1)))%nat ->
  exists s',
    operator_call op zero_elem hip_status lds fuel input block_size items_per_thread s
    = (Raise UnsupportedConfiguration, s')
    /\ s'.1 = s.1
    /\ launches s'.2 = launches s.2
    /\ trace s'.2 = trace s.2 ++ [CopyIn (front s.1) (length input)]
    /\ (forall p, p <> front s.1 -> mem s'.2 p = mem s.2 p).
Proof.
  intros Hok Hmenu Hn Hfuel Hfit. destruct s as [o d]. cbn [fst snd] in *.
  destruct (operator_call_unsupported op zero_elem hip_status lds Hok fuel input
              block_size items_per_thread o d Hmenu Hn Hfuel Hfit)
    as (d' & Hcall & Hl & Ht & Hm).
  exists (o, d'). cbn [fst snd]. auto.
Qed.

Lemma C7_unsupported_configuration_reported_witness :
  exists s',
    sum_call all_ok [1; 2; 3] 100 1 (sum_engine 32 [8] [32])
    = (Raise UnsupportedConfiguration, s')
    /\ s'.1 = (sum_engine 32 [8] [32]).1
    /\ launches s'.2 = launches (sum_engine 32 [8] [32]).2
    /\ trace s'.2 = trace (sum_engine 32 [8] [32]).2
                      ++ [CopyIn (front (sum_engine 32 [8] [32]).1) (length [1; 2; 3])]
    /\ (forall p, p <> front (sum_engine 32 [8] [32]).1 ->
          mem s'.2 p = mem (sum_engine 32 [8] [32]).2 p).
Proof.
  apply (C7_unsupported_configuration_reported Z.add 0 all_ok lds77 3 [1; 2; 3] 100 1
           (sum_engine 32 [8] [32])).
  - intros k. reflexivity.
  - left. reflexivity.
  - simpl. lia.
  - lia.
  - vm_compute. lia.
Defined.

(** C7 fails as stated: with a single-element input the loop never
    dispatches, so the block size 7, which is in no menu, is not reported:
    the call returns. *)
Lemma C7_counterexample_single_element_not_reported :
  in_menu block_size_menu 7 = false
  /\ (sum_call all_ok [5] 7 1 (sum_engine 32 [8] [32])).1 = Ret 99.
Proof. vm_compute. split; reflexivity. Qed.

(** ** C8: the capacities chosen by the constructor *)




(** ** C9: the scenario [1..8], block size 4 *)

(** C9 (as amended): for the input [1,2,3,4,5,6,7,8] with addition and
    neutral element 0, the planner's sizes for the factor 4 * 1 are
    8 -> 2 -> 1, two passes; the block size 4 is not in the block-size
    menu, so the call with block_size = 4 and items_per_thread = 1 stops
    at the first dispatch with the unsupported configuration and launches
    no kernel; with the least block size of the menu, 32, on a device with
    32-wide warps, the call returns 36 after exactly one pass (8 -> 1). *)
Theorem C9_scenario_one_to_eight :
  new_size (4 * 1) 8 = 2 /\ new_size (4 * 1) 2 = 1
  /\ in_menu block_size_menu 4 = false
  /\ (sum_call all_ok (one_to 8) 4 1 (sum_engine 32 [8] [4])).1
     = Raise UnsupportedConfiguration
  /\ launches (sum_call all_ok (one_to 8) 4 1 (sum_engine 32 [8] [4])).2.2 = 0%nat
  /\ (sum_call all_ok (one_to 8) 32 1 (sum_engine 32 [8] [32])).1 = Ret 36
  /\ trace (sum_call all_ok (one_to 8) 32 1 (sum_engine 32 [8] [32])).2.2
     = [CopyIn BufA 8; Launch BufA BufB 1 32 8; CopyOut BufB].
Proof. vm_compute. repeat split. Qed.

(** C9 fails as stated: the call on [1..8] with block_size = 4 and
    items_per_thread = 1 does not return 36: it stops with the
    unsupported configuration before any pass. *)
Lemma C9_counterexample_block_size_4_rejected :
  one_to 8 = [1; 2; 3; 4; 5; 6; 7; 8]
  /\ (sum_call all_ok (one_to 8) 4 1 (sum_engine 32 [8] [4])).1
     = Raise UnsupportedConfiguration
  /\ (sum_call all_ok (one_to 8) 4 1 (sum_engine 32 [8] [4])).1 <> Ret 36
  /\ trace (sum_call all_ok (one_to 8) 4 1 (sum_engine 32 [8] [4])).2.2
     = [CopyIn BufA 8].
Proof. vm_compute. repeat split. discriminate. Qed.

(** ** C10: termination *)

(** C10: for every reduction factor >= 2 and every current size n > 1 (a
    [size_t]), [new_size factor n < n]; so for every input and every block
    size and items-per-thread whose product is a factor of at least 2, the
    call never runs out of the fuel of one pass per input element: its
    pass loop terminates, from every state and on every platform. *)
Theorem C10_pass_loop_terminates {T : Type} (op : T -> T -> T) (zero_elem : T)
    (hip_status : nat -> hipError_t) (lds : nat -> nat -> nat -> T)
    (input : list T) (block_size items_per_thread : Z) :
  2 <= size_t (block_size * items_per_thread) ->
  Z.of_nat (length input) < 2 ^ 64 ->
  (forall factor n, 2 <= factor -> 1 < n < 2 ^ 64 -> new_size factor n < n)
  /\ (forall fuel s, (length input <= fuel)%nat ->
        (operator_call op zero_elem hip_status lds fuel input block_size
           items_per_thread s).1 <> OutOfFuel).
Proof.
  intros Hf Hn. split.
  - intros factor n. apply new_size_shrinks.
  - intros fuel s Hfuel.
    apply (fuelled_operator_call op zero_elem hip_status lds fuel input block_size
             items_per_thread Hf Hn Hfuel).
Qed.

Lemma C10_pass_loop_terminates_witness :
  (forall factor n, 2 <= factor -> 1 < n < 2 ^ 64 -> new_size factor n < n)
  /\ (forall fuel s, (length (one_to 100) <= fuel)%nat ->
        (operator_call Z.add 0 (fails_at 9) lds77 fuel (one_to 100) 32 1 s).1
        <> OutOfFuel).
Proof.
  apply (C10_pass_loop_terminates Z.add 0 (fails_at 9) lds77 (one_to 100) 32 1).
  - vm_compute. discriminate.
  - vm_compute. reflexivity.
Defined.

(** * Further properties of the planner, the kernel and the call *)

(** ** The pass planner *)

Lemma new_size_unique factor n k :
  1 <= factor -> 0 <= n < 2 ^ 64 ->
  factor * (k - 1) < n <= factor * k -> new_size factor n = k.
Proof.
  intros Hf Hn Hk. assert (H := new_size_cover factor n Hf Hn). nia.
Qed.

Lemma new_size_mono_n factor m n :
  1 <= factor -> 0 <= m <= n -> n < 2 ^ 64 -> new_size factor m <= new_size factor n.
Proof.
  intros Hf Hm Hn.
  assert (H1 := new_size_cover factor m Hf ltac:(lia)).
  assert (H2 := new_size_cover factor n Hf ltac:(lia)).
  nia.
Qed.

(** X1: two passes shrink like one pass with the product of their
    factors: [new_size f (new_size g n) = new_size (f * g) n]. *)
Theorem X1_new_size_composes f g n :
  1 <= f -> 1 <= g -> 0 <= n < 2 ^ 64 ->
  new_size f (new_size g n) = new_size (f * g) n.
Proof.
  intros Hf Hg Hn.
  assert (Hm := new_size_cover g n Hg Hn).
  assert (Hm0 : 0 <= new_size g n <= n).
  { destruct (Z.eq_dec n 0) as [->|]; [rewrite new_size_zero; lia|].
    assert (H := new_size_bounds g n Hg ltac:(lia)). lia. }
  assert (Hk := new_size_cover f (new_size g n) Hf ltac:(lia)).
  symmetry. apply new_size_unique; [nia|lia|].
  split.
  - assert (f * (new_size f (new_size g n) - 1) <= new_size g n - 1) by lia.
    assert (g * (f * (new_size f (new_size g n) - 1)) <= g * (new_size g n - 1)) by nia.
    lia.
  - assert (g * new_size g n <= g * (f * new_size f (new_size g n))) by nia.
    lia.
Qed.

Lemma X1_new_size_composes_witness :
  new_size 32 (new_size 96 5000) = new_size (32 * 96) 5000.
Proof. apply (X1_new_size_composes 32 96 5000); lia. Defined.

(** X2: a pass leaves at most one element exactly when the current size
    is at most the factor; it leaves none only for the empty size. *)
Theorem X2_new_size_last_pass factor n :
  1 <= factor -> 0 <= n < 2 ^ 64 ->
  (new_size factor n <= 1 <-> n <= factor)
  /\ (new_size factor n = 0 <-> n = 0).
Proof.
  intros Hf Hn. assert (H := new_size_cover factor n Hf Hn).
  split; split; intros; nia.
Qed.

Lemma X2_new_size_last_pass_witness :
  (new_size 32 33 <= 1 <-> 33 <= 32) /\ (new_size 32 33 = 0 <-> 33 = 0).
Proof. apply (X2_new_size_last_pass 32 33); lia. Defined.

(** X3: [new_size] grows with the size and shrinks with the factor. *)
Theorem X3_new_size_monotone f g m n :
  1 <= f <= g -> 0 <= m <= n -> n < 2 ^ 64 ->
  new_size g m <= new_size f n.
Proof.
  intros Hfg Hm Hn.
  assert (H1 := new_size_mono_factor f g m Hfg ltac:(lia)).
  assert (H2 := new_size_mono_n f m n ltac:(lia) Hm Hn).
  lia.
Qed.

Lemma X3_new_size_monotone_witness : new_size 64 100 <= new_size 32 5000.
Proof. apply (X3_new_size_monotone 32 64 100 5000); lia. Defined.

(** ** The kernel, for any operator *)

Section KernelAnyOp.
Context {T : Type}.
Variable op : T -> T -> T.
Variable zero_elem : T.

Local Abbreviation padded_at front front_size :=
  (fun p : nat => default zero_elem (take (Z.to_nat front_size) front !! p)).

(** Within the 32-bit index range every thread of a block reads its items
    and folds them. *)
Lemma kernel_threads B IPT (front : list T) front_size bid :
  (1 <= IPT)%nat ->
  0 <= front_size <= Z.of_nat (length front) ->
  (Z.of_nat bid + 1) * (Z.of_nat B * Z.of_nat IPT) <= 2 ^ 31 ->
  mapM (fun tid =>
          arr ← read_global_safe zero_elem IPT front front_size (gid B IPT bid tid);
          Some (reduce_items op zero_elem IPT arr))
       (seq 0 B)
  = Some (map (fun tid =>
                 reduce_items op zero_elem IPT
                   (map (padded_at front front_size)
                      (seq (bid * (B * IPT) + tid * IPT) IPT)))
            (seq 0 B)).
Proof.
  intros HIPT Hsize Hrange. apply mapM_map_Some. intros tid Htid.
  apply elem_of_seq in Htid.
  assert (Hoff : Z.of_nat (bid * (B * IPT) + tid * IPT) + Z.of_nat IPT <= 2 ^ 31).
  { assert (Z.of_nat tid * Z.of_nat IPT + Z.of_nat IPT
            <= Z.of_nat B * Z.of_nat IPT) by nia.
    nia. }
  rewrite gid_wrapped, i32_small by lia.
  rewrite read_global_safe_padded by lia.
  cbn [mbind option_bind]. rewrite Nat2Z.id. reflexivity.
Qed.

Lemma kernel_unfolded B W IPT (front sh : list T) front_size bid :
  (1 <= IPT)%nat ->
  0 <= front_size <= Z.of_nat (length front) ->
  (Z.of_nat bid + 1) * (Z.of_nat B * Z.of_nat IPT) <= 2 ^ 31 ->
  kernel op zero_elem B W IPT front front_size sh bid
  = Some (nth 0
            (res (static_for (S (B / W)) (B / W) (not_equal 0)
                    (select (not_equal 1) (divide_ceil W) (constant 0))
                    (block_round op zero_elem B W)
                    {| res := map (fun tid =>
                                     reduce_items op zero_elem IPT
                                       (map (padded_at front front_size)
                                          (seq (bid * (B * IPT) + tid * IPT) IPT)))
                                (seq 0 B);
                       shared := sh |}))
            zero_elem).
Proof.
  intros HIPT Hsize Hrange. unfold kernel.
  rewrite kernel_threads by assumption. reflexivity.
Qed.


(** What a launch that succeeds has written. *)
Lemma launch_frame B W IPT grid (front back out : list T) front_size lds :
  launch op zero_elem B W IPT grid front back front_size lds = Some out ->
  (grid <= length back)%nat
  /\ length out = length back
  /\ drop grid out = drop grid back
  /\ forall bid, (bid < grid)%nat ->
       kernel op zero_elem B W IPT front front_size
         (map (lds bid) (seq 0 (B / W))) bid = out !! bid.
Proof.
  unfold launch. revert out. induction grid as [|g IH]; intros out E.
  - injection E as <-. repeat split; [lia|]. intros bid Hbid. lia.
  - rewrite seq_S, foldl_snoc, Nat.add_0_l in E.
    destruct (foldl _ _ (seq 0 g)) as [acc|]; [|discriminate E].
    destruct (IH acc eq_refl) as (Hcap & Hlen & Hdrop & Hker).
    cbn [mbind option_bind] in E.
    destruct (kernel _ _ _ _ _ _ _ _ g) as [v|] eqn:Ev; [|discriminate E].
    cbn [mbind option_bind] in E. unfold store in E.
    destruct (Nat.ltb_spec g (length acc)) as [Hg|Hg]; [|discriminate E].
    injection E as <-.
    split; [lia|]. split; [rewrite length_insert; exact Hlen|].
    split.
    + rewrite drop_insert_lt by lia.
      replace (S g) with (g + 1)%nat by lia.
      rewrite <- !drop_drop, Hdrop. reflexivity.
    + intros bid Hbid. destruct (decide (bid = g)) as [->|Hne].
      * rewrite list_lookup_insert_eq by lia. exact Ev.
      * rewrite list_lookup_insert_ne by congruence. apply Hker. lia.
Qed.

(** For a block of at least one whole warp the first round overwrites
    every slot of the shared array before it is read. *)
Lemma block_round_any_shared W WC (r sh1 sh2 : list T) :
  (1 <= W)%nat -> (1 <= WC)%nat ->
  length r = (WC * W)%nat -> length sh1 = WC -> length sh2 = WC ->
  block_round op zero_elem (WC * W) W WC {| res := r; shared := sh1 |}
  = block_round op zero_elem (WC * W) W WC {| res := r; shared := sh2 |}.
Proof.
  intros HW HWC Hr H1 H2. unfold block_round. cbn [res shared].
  assert (Hsh : write_shared zero_elem W WC (warp_reduce op zero_elem W WC r) sh1
                = write_shared zero_elem W WC (warp_reduce op zero_elem W WC r) sh2).
  { apply list_eq. intros w. rewrite !write_shared_lookup by lia.
    rewrite length_warp_reduce, Hr.
    destruct (Nat.ltb_spec w WC) as [Hw|Hw]; cbn [andb].
    - destruct (Nat.ltb_spec (w * W) (WC * W)); [reflexivity|nia].
    - rewrite !(proj2 (lookup_ge_None _ _)) by lia. reflexivity. }
  rewrite Hsh. reflexivity.
Qed.
End KernelAnyOp.

Lemma kernel_same_padding {T : Type} (op : T -> T -> T) (zero_elem : T)
    B W IPT (front1 front2 sh : list T) fs1 fs2 bid :
  (1 <= IPT)%nat ->
  0 <= fs1 <= Z.of_nat (length front1) ->
  0 <= fs2 <= Z.of_nat (length front2) ->
  (Z.of_nat bid + 1) * (Z.of_nat B * Z.of_nat IPT) <= 2 ^ 31 ->
  (forall p, default zero_elem (take (Z.to_nat fs1) front1 !! p)
             = default zero_elem (take (Z.to_nat fs2) front2 !! p)) ->
  kernel op zero_elem B W IPT front1 fs1 sh bid
  = kernel op zero_elem B W IPT front2 fs2 sh bid.
Proof.
  intros HIPT H1 H2 Hrange Hpad.
  rewrite (kernel_unfolded op zero_elem B W IPT front1) by assumption.
  rewrite (kernel_unfolded op zero_elem B W IPT front2) by assumption.
  assert (E : map (fun tid =>
                     reduce_items op zero_elem IPT
                       (map (fun p => default zero_elem (take (Z.to_nat fs1) front1 !! p))
                          (seq (bid * (B * IPT) + tid * IPT) IPT))) (seq 0 B)
              = map (fun tid =>
                     reduce_items op zero_elem IPT
                       (map (fun p => default zero_elem (take (Z.to_nat fs2) front2 !! p))
                          (seq (bid * (B * IPT) + tid * IPT) IPT))) (seq 0 B)).
  { apply map_ext. intros tid. f_equal. apply map_ext. exact Hpad. }
  rewrite E. reflexivity.
Qed.

(** X4: a thread folds its items from left to right, starting from the
    first one, for any operator: no neutral element enters the fold. *)
Theorem X4_thread_folds_left_to_right {T : Type} (op : T -> T -> T) (zero_elem : T)
    (ItemsPerThread : nat) (x : T) (arr : list T) :
  length (x :: arr) = ItemsPerThread ->
  reduce_items op zero_elem ItemsPerThread (x :: arr) = foldl op x arr.
Proof. apply reduce_items_foldl. Qed.

Lemma X4_thread_folds_left_to_right_witness :
  reduce_items Z.sub 0 4 [100; 1; 2; 3] = foldl Z.sub 100 [1; 2; 3].
Proof. apply (X4_thread_folds_left_to_right Z.sub 0 4 100 [1; 2; 3]). reflexivity. Defined.

(** X5: within the 32-bit index range a block makes no invalid access,
    and what it returns depends on the front buffer only through the
    first [front_size] elements, for any operator, block size, warp width
    and content of the shared array. *)
Theorem X5_kernel_reads_valid_prefix_only {T : Type} (op : T -> T -> T) (zero_elem : T)
    (BlockSize WarpSize ItemsPerThread : nat) (front front' sh : list T)
    (front_size : Z) (bid : nat) :
  (1 <= ItemsPerThread)%nat ->
  0 <= front_size <= Z.of_nat (length front) ->
  front_size <= Z.of_nat (length front') ->
  take (Z.to_nat front_size) front' = take (Z.to_nat front_size) front ->
  (Z.of_nat bid + 1) * (Z.of_nat BlockSize * Z.of_nat ItemsPerThread) <= 2 ^ 31 ->
  is_Some (kernel op zero_elem BlockSize WarpSize ItemsPerThread front front_size sh bid)
  /\ kernel op zero_elem BlockSize WarpSize ItemsPerThread front' front_size sh bid
     = kernel op zero_elem BlockSize WarpSize ItemsPerThread front front_size sh bid.
Proof.
  intros HIPT Hsize Hsize' Htake Hrange. split.
  - rewrite kernel_unfolded by assumption. eexists. reflexivity.
  - apply kernel_same_padding; try assumption; [lia|].
    intros p. rewrite Htake. reflexivity.
Qed.

Lemma X5_kernel_reads_valid_prefix_only_witness :
  is_Some (kernel Z.add 0 32 32 2 (one_to 50) 50 (replicate 1 77) 0)
  /\ kernel Z.add 0 32 32 2 (one_to 50 ++ [1000; 2000]) 50 (replicate 1 77) 0
     = kernel Z.add 0 32 32 2 (one_to 50) 50 (replicate 1 77) 0.
Proof.
  apply (X5_kernel_reads_valid_prefix_only Z.add 0 32 32 2 (one_to 50)
           (one_to 50 ++ [1000; 2000]) (replicate 1 77) 50 0).
  - lia.
  - vm_compute. split; discriminate.
  - vm_compute. discriminate.
  - vm_compute. reflexivity.
  - vm_compute. discriminate.
Defined.



(** X7: a block of at least one whole warp returns the same value
    whatever its shared array holds at entry, for any operator. *)
Theorem X7_kernel_ignores_shared_garbage {T : Type} (op : T -> T -> T) (zero_elem : T)
    (WarpSize WarpCount ItemsPerThread : nat) (front sh1 sh2 : list T)
    (front_size : Z) (bid : nat) :
  (1 <= WarpSize)%nat -> (1 <= WarpCount)%nat ->
  length sh1 = WarpCount -> length sh2 = WarpCount ->
  kernel op zero_elem (WarpCount * WarpSize) WarpSize ItemsPerThread front front_size
    sh1 bid
  = kernel op zero_elem (WarpCount * WarpSize) WarpSize ItemsPerThread front front_size
      sh2 bid.
Proof.
  intros HW HWC H1 H2. unfold kernel.
  destruct (mapM _ (seq 0 (WarpCount * WarpSize))) as [res0|] eqn:E; [|reflexivity].
  cbn [mbind option_bind]. apply length_mapM in E. rewrite length_seq in E.
  rewrite Nat.div_mul by lia.
  assert (Hc : not_equal 0 WarpCount = true).
  { unfold not_equal. destruct (Nat.eqb_spec WarpCount 0); [lia|reflexivity]. }
  rewrite !static_for_step by exact Hc.
  rewrite (block_round_any_shared op zero_elem WarpSize WarpCount res0 sh1 sh2)
    by (try assumption; congruence).
  reflexivity.
Qed.

Lemma X7_kernel_ignores_shared_garbage_witness :
  kernel Z.sub 0 (2 * 32) 32 1 (one_to 100) 100 [77; 78] 1
  = kernel Z.sub 0 (2 * 32) 32 1 (one_to 100) 100 [0; -5] 1.
Proof.
  apply (X7_kernel_ignores_shared_garbage Z.sub 0 32 2 1 (one_to 100) [77; 78] [0; -5]
           100 1); [lia|lia|reflexivity|reflexivity].
Defined.





(** X10: a launch that succeeds has at most as many blocks as the back
    buffer has cells; it keeps the length of the back buffer, leaves every
    cell from [grid] on as it was, and cell [bid] below [grid] holds what
    block [bid] returned. *)
Theorem X10_launch_writes_first_cells_only {T : Type} (op : T -> T -> T) (zero_elem : T)
    (BlockSize WarpSize ItemsPerThread grid : nat) (front back out : list T)
    (front_size : Z) (lds : nat -> nat -> T) :
  launch op zero_elem BlockSize WarpSize ItemsPerThread grid front back front_size lds
  = Some out ->
  (grid <= length back)%nat
  /\ length out = length back
  /\ drop grid out = drop grid back
  /\ forall bid, (bid < grid)%nat ->
       kernel op zero_elem BlockSize WarpSize ItemsPerThread front front_size
         (map (lds bid) (seq 0 (BlockSize / WarpSize))) bid = out !! bid.
Proof. apply launch_frame. Qed.

Lemma X10_launch_writes_first_cells_only_witness :
  (2 <= length [7; 8; 9])%nat
  /\ length [2080; 2970; 9] = length [7; 8; 9]
  /\ drop 2 [2080; 2970; 9] = drop 2 [7; 8; 9]
  /\ forall bid, (bid < 2)%nat ->
       kernel Z.add 0 32 32 2 (one_to 100) 100 (map (lds77 0 bid) (seq 0 (32 / 32))) bid
       = [2080; 2970; 9] !! bid.
Proof.
  apply (X10_launch_writes_first_cells_only Z.add 0 32 32 2 2 (one_to 100) [7; 8; 9]
           [2080; 2970; 9] 100 (lds77 0)).
  vm_compute. reflexivity.
Defined.

(** X11: one warp reduction over a warp of [2 ^ K] lanes with an
    associative and commutative operator leaves in lane 0 of every active
    warp the sum of the values of that warp, keeps the values of the
    threads of inactive warps, and keeps the number of threads. *)
Theorem X11_warp_reduce_sums_each_active_warp {T : Type} (op : T -> T -> T)
    (zero_elem : T) (K ActiveWarps : nat) (r : list T) :
  (forall x y z, op x (op y z) = op (op x y) z) ->
  (forall x y, op x y = op y x) ->
  (forall x, op x zero_elem = x) ->
  (1 <= K)%nat ->
  length (warp_reduce op zero_elem (2 ^ K) ActiveWarps r) = length r
  /\ (forall w, (w < ActiveWarps)%nat -> ((w + 1) * 2 ^ K <= length r)%nat ->
        nth (w * 2 ^ K) (warp_reduce op zero_elem (2 ^ K) ActiveWarps r) zero_elem
        = msum op zero_elem (take (2 ^ K) (drop (w * 2 ^ K) r)))
  /\ (forall t, (ActiveWarps <= t / 2 ^ K)%nat ->
        warp_reduce op zero_elem (2 ^ K) ActiveWarps r !! t = r !! t).
Proof.
  intros Ha Hc Hz HK. split; [|split].
  - apply length_warp_reduce.
  - intros w Hw Hlen. apply (warp_reduce_lane0 op zero_elem Ha Hc Hz); assumption.
  - intros t Ht. apply warp_reduce_inactive. exact Ht.
Qed.

Lemma X11_warp_reduce_sums_each_active_warp_witness :
  length (warp_reduce Z.add 0 (2 ^ 2) 1 [1; 2; 3; 4; 5; 6; 7; 8])
  = length [1; 2; 3; 4; 5; 6; 7; 8]
  /\ (forall w, (w < 1)%nat -> ((w + 1) * 2 ^ 2 <= length [1; 2; 3; 4; 5; 6; 7; 8])%nat ->
        nth (w * 2 ^ 2) (warp_reduce Z.add 0 (2 ^ 2) 1 [1; 2; 3; 4; 5; 6; 7; 8]) 0
        = msum Z.add 0 (take (2 ^ 2) (drop (w * 2 ^ 2) [1; 2; 3; 4; 5; 6; 7; 8])))
  /\ (forall t, (1 <= t / 2 ^ 2)%nat ->
        warp_reduce Z.add 0 (2 ^ 2) 1 [1; 2; 3; 4; 5; 6; 7; 8] !! t
        = [1; 2; 3; 4; 5; 6; 7; 8] !! t).
Proof.
  apply (X11_warp_reduce_sums_each_active_warp Z.add 0 2 1 [1; 2; 3; 4; 5; 6; 7; 8]).
  - intros; lia.
  - intros; lia.
  - intros; lia.
  - lia.
Defined.

(** X12: for a block size, warp width and items per thread of the menus
    with the warp no wider than the block, and an associative and
    commutative operator with neutral [zero_elem]: one launch whose
    [front_size] does not exceed the front buffer and whose grid fits the
    back buffer, covers the valid prefix
    ([front_size <= grid * block_size * items_per_thread]) and stays in
    the kernel's 32-bit index range
    ([grid * block_size * items_per_thread < 2 ^ 31]) writes one partial
    result per block into the first [grid] cells of the back buffer,
    leaves the other cells, and the partial results sum to the sum of the
    valid prefix: such a pass keeps the total. *)
Theorem X12_launch_keeps_the_total {T : Type} (op : T -> T -> T) (zero_elem : T)
    (block_size ws items_per_thread : Z) (grid : nat) (front back : list T)
    (front_size : Z) (lds : nat -> nat -> T) :
  (forall x y z, op x (op y z) = op (op x y) z) ->
  (forall x y, op x y = op y x) ->
  (forall x, op x zero_elem = x) ->
  in_menu block_size_menu block_size = true ->
  in_menu warp_size_menu ws = true ->
  in_menu items_per_thread_menu items_per_thread = true ->
  ws <= block_size ->
  0 <= front_size <= Z.of_nat (length front) ->
  (grid <= length back)%nat ->
  front_size <= Z.of_nat grid * (block_size * items_per_thread) < 2 ^ 31 ->
  exists outs,
    launch op zero_elem (Z.to_nat block_size) (Z.to_nat ws) (Z.to_nat items_per_thread)
      grid front back front_size lds = Some (outs ++ drop grid back)
    /\ length outs = grid
    /\ msum op zero_elem outs = msum op zero_elem (take (Z.to_nat front_size) front).
Proof.
  intros Ha Hc Hz Hb Hw Hi Hle Hsize Hgrid Hrange.
  destruct (menu_shape block_size ws Hb Hw Hle) as (K & WC & HW & HB & HK & HWC).
  pose proof (menu_items items_per_thread Hi) as Hi'.
  pose proof (menu_block block_size Hb) as Hb'.
  rewrite HB, HW.
  assert (HBZ : Z.of_nat (WC * 2 ^ K) = block_size) by (rewrite <- HB; lia).
  apply (launch_sum op zero_elem Ha Hc Hz K WC (Z.to_nat items_per_thread));
    try assumption; try lia.
Qed.

Lemma X12_launch_keeps_the_total_witness :
  exists outs,
    launch Z.add 0 (Z.to_nat 32) (Z.to_nat 32) (Z.to_nat 1) 4 (one_to 100) [9; 9; 9; 9; 9]
      100 (lds77 0) = Some (outs ++ drop 4 [9; 9; 9; 9; 9])
    /\ length outs = 4%nat
    /\ msum Z.add 0 outs = msum Z.add 0 (take (Z.to_nat 100) (one_to 100)).
Proof.
  apply (X12_launch_keeps_the_total Z.add 0 32 32 1 4 (one_to 100) [9; 9; 9; 9; 9] 100
           (lds77 0)).
  - intros; lia.
  - intros; lia.
  - intros; lia.
  - reflexivity.
  - reflexivity.
  - reflexivity.
  - lia.
  - vm_compute. split; discriminate.
  - vm_compute. lia.
  - vm_compute. split; [discriminate|reflexivity].
Defined.

(** ** What a call keeps, whatever its outcome *)

Lemma keeps_ret {St A : Type} (I : St -> Prop) (a : A) : keeps I (ret a).
Proof. intros s H. exact H. Qed.

Lemma keeps_raise {St A : Type} (I : St -> Prop) e : keeps I (@raise St A e).
Proof. intros s H. exact H. Qed.

Lemma keeps_out_of_fuel {St A : Type} (I : St -> Prop) : keeps I (@out_of_fuel St A).
Proof. intros s H. exact H. Qed.

Lemma keeps_gets {St A : Type} (I : St -> Prop) (f : St -> A) : keeps I (gets f).
Proof. intros s H. exact H. Qed.

Lemma keeps_modify {St : Type} (I : St -> Prop) (f : St -> St) :
  (forall s, I s -> I (f s)) -> keeps I (modify f).
Proof. intros Hf s H. apply Hf, H. Qed.

Lemma keeps_bind {St A B : Type} (I : St -> Prop) (m : M St A) (k : A -> M St B) :
  keeps I m -> (forall a, keeps I (k a)) -> keeps I (bind m k).
Proof.
  intros Hm Hk s Hs. unfold bind. specialize (Hm s Hs).
  destruct (m s) as [[a| |] s1]; simpl in *; [apply Hk, Hm|exact Hm|exact Hm].
Qed.

Lemma keeps_static_switch {St A : Type} (I : St -> Prop) menu value (f : nat -> M St A) :
  (forall V, keeps I (f V)) -> keeps I (static_switch menu value f).
Proof.
  intros Hf. unfold static_switch.
  destruct (in_menu menu value); [apply Hf|apply keeps_raise].
Qed.

Section HostKeeps.
Context {T : Type}.
Variable op : T -> T -> T.
Variable zero_elem : T.
Variable hip_status : nat -> hipError_t.
Variable lds : nat -> nat -> nat -> T.
Variables capA capB : nat.
Variable o0 : v9.
Variable tr0 : list event.
Hypothesis origi_differ : origi_front o0 <> origi_back o0.

Local Abbreviation inv := (@engine_inv T capA capB o0 tr0).

Lemma trace_extended (tr : list event) (e : event) :
  (exists added, tr = tr0 ++ added /\ Forall not_in_place added) ->
  not_in_place e ->
  exists added, tr ++ [e] = tr0 ++ added /\ Forall not_in_place added.
Proof.
  intros (added & -> & Hadd) He. exists (added ++ [e]). split.
  - rewrite app_assoc. reflexivity.
  - apply Forall_app. split; [exact Hadd|]. constructor; [exact He|constructor].
Qed.

Lemma keeps_runtime_call : keeps inv (runtime_call hip_status).
Proof. intros [o d] H. exact H. Qed.

Lemma keeps_HIP_CHECK operation (call : M (@state T) hipError_t) :
  keeps inv call -> keeps inv (HIP_CHECK operation call).
Proof.
  intros Hc. unfold HIP_CHECK. apply keeps_bind; [exact Hc|].
  intros [|c]; [apply keeps_ret|apply keeps_raise].
Qed.

Lemma keeps_hipGetLastError : keeps inv hipGetLastError.
Proof. intros [o d] H. exact H. Qed.

Lemma keeps_copy_in dst input : keeps inv (hipMemcpyHostToDevice hip_status dst input).
Proof.
  intros [o d] H. unfold hipMemcpyHostToDevice, bind, runtime_call.
  destruct (hip_status (calls d)); [|exact H].
  unfold gets. cbv beta iota.
  match goal with |- context [(length input <=? ?n)%nat] =>
    destruct (Nat.leb_spec (length input) n) as [Hle|Hle] end; [|exact H].
  destruct H as (HA & HB & H3 & H4 & H5 & H6 & H7).
  destruct dst; simpl in *; unfold engine_inv; simpl;
    (split_and!; try assumption;
     [rewrite length_app, length_drop; lia
     |apply trace_extended; [assumption|exact I]]).
Qed.

Lemma keeps_copy_out src : keeps inv (hipMemcpyDeviceToHost hip_status src).
Proof.
  intros [o d] H. unfold hipMemcpyDeviceToHost, bind, runtime_call.
  destruct (hip_status (calls d)); [|exact H].
  unfold gets. cbv beta iota.
  match goal with |- context [?b !! 0%nat] => destruct (b !! 0%nat) end; [|exact H].
  destruct H as (HA & HB & H3 & H4 & H5 & H6 & H7).
  unfold engine_inv; simpl. split_and!; try assumption.
  apply trace_extended; [assumption|exact I].
Qed.

Lemma keeps_launch B W IPT grid step_size :
  keeps inv (hipLaunchKernelGGL op zero_elem hip_status lds B W IPT grid step_size).
Proof.
  intros [o d] H. unfold hipLaunchKernelGGL, bind, runtime_call.
  destruct (hip_status (calls d)); [|exact H].
  unfold gets, id. cbv beta iota.
  match goal with |- context [launch ?a ?b ?c ?e ?f ?g ?h ?i ?j ?k] =>
    destruct (launch a b c e f g h i j k) as [out|] eqn:E end; [|exact H].
  apply launch_frame in E. destruct E as (_ & Hlen & _).
  destruct H as (HA & HB & H3 & H4 & H5 & H6 & H7). simpl in *.
  unfold engine_inv. simpl.
  destruct (back o) eqn:Eb; simpl in *;
    (split_and!; try assumption; try congruence;
     apply trace_extended; [assumption|simpl; congruence]).
Qed.

Lemma keeps_swap : keeps inv swap.
Proof.
  apply keeps_modify. intros [o d] (HA & HB & H3 & H4 & H5 & H6 & H7).
  unfold engine_inv; simpl in *. split_and!; try assumption; congruence.
Qed.

Lemma keeps_restore : keeps inv restore.
Proof.
  apply keeps_modify. intros [o d] (HA & HB & H3 & H4 & H5 & H6 & H7).
  unfold engine_inv; simpl in *. split_and!; try assumption; congruence.
Qed.

Lemma keeps_dispatch block_size items_per_thread factor step_size :
  keeps inv (kernel_dispatcher op zero_elem hip_status lds block_size items_per_thread
               factor step_size).
Proof.
  unfold kernel_dispatcher.
  apply keeps_static_switch. intros B.
  apply keeps_bind; [apply keeps_gets|]. intros ws.
  apply keeps_static_switch. intros W.
  apply keeps_static_switch. intros IPT.
  apply keeps_launch.
Qed.

Lemma keeps_pass_loop fuel block_size items_per_thread factor curr :
  keeps inv (pass_loop op zero_elem hip_status lds fuel block_size items_per_thread
               factor curr).
Proof.
  revert curr. induction fuel as [|fuel IH]; intros curr; simpl.
  - destruct (1 <? curr); [apply keeps_out_of_fuel|apply keeps_ret].
  - destruct (1 <? curr); [|apply keeps_ret].
    apply keeps_bind; [apply keeps_dispatch|]. intros _.
    apply keeps_bind; [apply keeps_HIP_CHECK, keeps_hipGetLastError|]. intros _.
    apply keeps_bind; [|intros _; apply IH].
    destruct (1 <? new_size factor curr); [apply keeps_swap|apply keeps_ret].
Qed.

Lemma keeps_operator_call fuel input block_size items_per_thread :
  keeps inv (operator_call op zero_elem hip_status lds fuel input block_size
               items_per_thread).
Proof.
  unfold operator_call.
  apply keeps_bind; [apply keeps_gets|]. intros f.
  apply keeps_bind; [apply keeps_HIP_CHECK, keeps_copy_in|]. intros _.
  do 3 (apply keeps_bind; [apply keeps_HIP_CHECK, keeps_runtime_call|]; intros _).
  apply keeps_bind; [apply keeps_pass_loop|]. intros _.
  do 2 (apply keeps_bind; [apply keeps_HIP_CHECK, keeps_runtime_call|]; intros _).
  apply keeps_bind; [apply keeps_gets|]. intros b.
  apply keeps_bind; [apply keeps_copy_out|]. intros r.
  apply keeps_bind; [apply keeps_HIP_CHECK, keeps_ret|]. intros _.
  do 3 (apply keeps_bind; [apply keeps_HIP_CHECK, keeps_runtime_call|]; intros _).
  apply keeps_bind; [apply keeps_restore|]. intros _.
  destruct r.2; [apply keeps_ret|apply keeps_raise].
Qed.
End HostKeeps.


(** ** No error stays pending after a call that returns *)

Section HostPending.
Context {T : Type}.
Variable op : T -> T -> T.
Variable zero_elem : T.
Variable hip_status : nat -> hipError_t.
Variable lds : nat -> nat -> nat -> T.

Local Abbreviation clean := (fun s : @state T => last_error s.2 = hipSuccess).

Lemma clean_checked_call operation :
  hoare clean (HIP_CHECK operation (runtime_call hip_status)) (fun _ => clean).
Proof.
  intros [o d] H a s' E. unfold HIP_CHECK, bind, runtime_call in E.
  destruct (hip_status (calls d)); [|discriminate E].
  injection E as _ <-. exact H.
Qed.

Lemma clean_copy_in operation dst input :
  hoare clean (HIP_CHECK operation (hipMemcpyHostToDevice hip_status dst input))
    (fun _ => clean).
Proof.
  intros [o d] H a s' E.
  unfold HIP_CHECK, hipMemcpyHostToDevice, bind, runtime_call, gets in E.
  destruct (hip_status (calls d)); [|discriminate E].
  cbv beta iota in E.
  match type of E with context [(length input <=? ?n)%nat] =>
    destruct (length input <=? n)%nat end; [|discriminate E].
  injection E as _ <-. destruct dst; exact H.
Qed.

Lemma clean_copy_out src :
  hoare clean (hipMemcpyDeviceToHost hip_status src)
    (fun r s => r.1 = hipSuccess -> clean s).
Proof.
  intros [o d] H a s' E.
  unfold hipMemcpyDeviceToHost, bind, runtime_call, gets in E.
  destruct (hip_status (calls d)).
  - cbv beta iota in E.
    match type of E with context [?b !! 0%nat] => destruct (b !! 0%nat) end;
      [|discriminate E].
    injection E as <- <-. intros _. exact H.
  - injection E as <- <-. discriminate.
Qed.

Lemma clean_last_error operation :
  hoare (fun _ => True) (HIP_CHECK operation (@hipGetLastError T)) (fun _ => clean).
Proof.
  intros [o d] _ a s' E. unfold HIP_CHECK, bind, hipGetLastError in E.
  destruct (last_error d); [|discriminate E].
  injection E as _ <-. reflexivity.
Qed.

Lemma clean_pass_loop fuel block_size items_per_thread factor curr :
  hoare clean
    (pass_loop op zero_elem hip_status lds fuel block_size items_per_thread factor curr)
    (fun _ => clean).
Proof.
  revert curr. induction fuel as [|fuel IH]; intros curr; simpl.
  - destruct (1 <? curr); [apply hoare_out_of_fuel|apply hoare_ret; auto].
  - destruct (1 <? curr); [|apply hoare_ret; auto].
    apply (hoare_bind _ _ (fun _ _ => True)); [intros s _ a s' _; exact I|]. intros _.
    apply (hoare_bind _ _ (fun _ => clean)); [apply clean_last_error|]. intros _.
    apply (hoare_bind _ _ (fun _ => clean)); [|intros _; apply IH].
    destruct (1 <? new_size factor curr).
    + apply hoare_modify. intros [o d] H. exact H.
    + apply hoare_ret. auto.
Qed.

Lemma clean_operator_call fuel input block_size items_per_thread :
  hoare clean
    (operator_call op zero_elem hip_status lds fuel input block_size items_per_thread)
    (fun _ => clean).
Proof.
  unfold operator_call.
  apply (hoare_bind _ _ (fun _ => clean)); [apply hoare_gets; auto|]. intros f.
  apply (hoare_bind _ _ (fun _ => clean)); [apply clean_copy_in|]. intros _.
  do 3 (apply (hoare_bind _ _ (fun _ => clean)); [apply clean_checked_call|]; intros _).
  apply (hoare_bind _ _ (fun _ => clean)); [apply clean_pass_loop|]. intros _.
  do 2 (apply (hoare_bind _ _ (fun _ => clean)); [apply clean_checked_call|]; intros _).
  apply (hoare_bind _ _ (fun _ => clean)); [apply hoare_gets; auto|]. intros b.
  apply (hoare_bind _ _ (fun r s => r.1 = hipSuccess -> clean s));
    [apply clean_copy_out|].
  intros r.
  apply (hoare_bind _ _ (fun _ => clean)).
  { unfold HIP_CHECK. intros s H a s' E. unfold bind, ret in E.
    destruct r.1; [|discriminate E]. injection E as _ <-. apply H. reflexivity. }
  intros _.
  do 3 (apply (hoare_bind _ _ (fun _ => clean)); [apply clean_checked_call|]; intros _).
  apply (hoare_bind _ _ (fun _ => clean)).
  { apply hoare_modify. intros [o d] H. exact H. }
  intros _. destruct r.2; [apply hoare_ret; auto|apply hoare_raise].
Qed.
End HostPending.

(** ** An engine serves one call after another *)

Lemma operator_call_serves {T : Type} (op : T -> T -> T) (zero_elem : T)
    (hip_status : nat -> hipError_t) (lds : nat -> nat -> nat -> T)
    (fuel : nat) (input : list T) (block_size items_per_thread : Z) (s : @state T) :
  (forall x y z, op x (op y z) = op (op x y) z) ->
  (forall x y, op x y = op y x) ->
  (forall x, op x zero_elem = x) ->
  (forall k, hip_status k = hipSuccess) ->
  ready s ->
  in_menu block_size_menu block_size = true ->
  in_menu items_per_thread_menu items_per_thread = true ->
  in_menu warp_size_menu (warp_size s.1) = true ->
  warp_size s.1 <= block_size ->
  (2 <= length input <= fuel)%nat ->
  (length input <= length (mem s.2 (front s.1)))%nat ->
  new_size (block_size * items_per_thread) (Z.of_nat (length input))
    <= Z.of_nat (length (mem s.2 (back s.1))) ->
  Z.of_nat (length input) + block_size * items_per_thread <= 2 ^ 31 ->
  exists s',
    operator_call op zero_elem hip_status lds fuel input block_size items_per_thread s
    = (Ret (msum op zero_elem input), s')
    /\ ready s' /\ s'.1 = s.1
    /\ forall p, length (mem s'.2 p) = length (mem s.2 p).
Proof.
  intros Ha Hc Hz Hok (Hf & Hb & Ho & Hle) Hbs Hipt Hws Hwb Hn HcapA HcapB Hrange.
  destruct s as [o d]. simpl in *.
  assert (Hfb : front o <> back o) by congruence.
  destruct (operator_call_ok op zero_elem hip_status lds Ha Hc Hz Hok fuel input
              block_size items_per_thread o d Hbs Hipt Hws Hwb Hfb Hle Hn HcapA HcapB
              Hrange) as (s' & E & _ & _).
  exists s'. split; [exact E|].
  pose proof (operator_call_returned op zero_elem hip_status lds fuel input block_size
                items_per_thread (o, d) s' _ E) as (_ & _ & _ & _ & _ & Ho').
  pose proof (clean_operator_call op zero_elem hip_status lds fuel input block_size
                items_per_thread (o, d) Hle _ s' E) as Hclean.
  assert (Hinv : engine_inv (length (memA d)) (length (memB d)) o (trace d) (o, d)).
  { unfold engine_inv. simpl. split_and!; try reflexivity; try assumption.
    exists []. split; [rewrite app_nil_r; reflexivity|constructor]. }
  apply (keeps_operator_call op zero_elem hip_status lds _ _ _ _ Ho fuel input
           block_size items_per_thread) in Hinv.
  rewrite E in Hinv. simpl in Hinv, Ho'.
  destruct Hinv as (HA & HB & _).
  assert (Eo : s'.1 = o).
  { rewrite Ho'. destruct o; simpl in *. congruence. }
  split; [|split; [exact Eo|]].
  - unfold ready. rewrite Eo. split_and!; assumption.
  - intros [|]; assumption.
Qed.

(** X13: whatever the outcome of a call (a result, an error of the
    runtime, an unsupported configuration, an invalid access, no fuel
    left), on an engine whose two buffers differ the call keeps the
    capacity of both allocations, the original pointers and the warp
    width, and front and back stay two different buffers. *)
Theorem X13_call_keeps_allocations {T : Type} (op : T -> T -> T) (zero_elem : T)
    (hip_status : nat -> hipError_t) (lds : nat -> nat -> nat -> T)
    (fuel : nat) (input : list T) (block_size items_per_thread : Z) (s : @state T) :
  front s.1 <> back s.1 ->
  origi_front s.1 <> origi_back s.1 ->
  let s' := (operator_call op zero_elem hip_status lds fuel input block_size
               items_per_thread s).2 in
  length (memA s'.2) = length (memA s.2)
  /\ length (memB s'.2) = length (memB s.2)
  /\ origi_front s'.1 = origi_front s.1
  /\ origi_back s'.1 = origi_back s.1
  /\ warp_size s'.1 = warp_size s.1
  /\ front s'.1 <> back s'.1.
Proof.
  intros Hfb Ho s'.
  assert (Hinv : engine_inv (length (memA s.2)) (length (memB s.2)) s.1 (trace s.2) s).
  { unfold engine_inv. split_and!; try reflexivity; try assumption.
    exists []. split; [rewrite app_nil_r; reflexivity|constructor]. }
  apply (keeps_operator_call op zero_elem hip_status lds _ _ _ _ Ho fuel input
           block_size items_per_thread) in Hinv.
  destruct Hinv as (HA & HB & H3 & H4 & H5 & H6 & _).
  split_and!; assumption.
Qed.

Lemma X13_call_keeps_allocations_witness :
  let s := sum_engine 32 [100] [32] in
  let s' := (sum_call (fails_at 5) (one_to 100) 32 1 s).2 in
  length (memA s'.2) = length (memA s.2)
  /\ length (memB s'.2) = length (memB s.2)
  /\ origi_front s'.1 = origi_front s.1
  /\ origi_back s'.1 = origi_back s.1
  /\ warp_size s'.1 = warp_size s.1
  /\ front s'.1 <> back s'.1.
Proof.
  apply (X13_call_keeps_allocations Z.add 0 (fails_at 5) lds77 (length (one_to 100))
           (one_to 100) 32 1 (sum_engine 32 [100] [32])).
  - vm_compute. discriminate.
  - vm_compute. discriminate.
Defined.

(** X14: whatever its outcome, a call on an engine whose two buffers
    differ only appends to the trace of device operations, and every
    launch it appends reads one buffer and writes the other: no pass runs
    in place. *)
Theorem X14_call_never_launches_in_place {T : Type} (op : T -> T -> T) (zero_elem : T)
    (hip_status : nat -> hipError_t) (lds : nat -> nat -> nat -> T)
    (fuel : nat) (input : list T) (block_size items_per_thread : Z) (s : @state T) :
  front s.1 <> back s.1 ->
  origi_front s.1 <> origi_back s.1 ->
  exists added,
    trace (operator_call op zero_elem hip_status lds fuel input block_size
             items_per_thread s).2.2 = trace s.2 ++ added
    /\ forall src dst grid bl size, In (Launch src dst grid bl size) added -> src <> dst.
Proof.
  intros Hfb Ho.
  assert (Hinv : engine_inv (length (memA s.2)) (length (memB s.2)) s.1 (trace s.2) s).
  { unfold engine_inv. split_and!; try reflexivity; try assumption.
    exists []. split; [rewrite app_nil_r; reflexivity|constructor]. }
  apply (keeps_operator_call op zero_elem hip_status lds _ _ _ _ Ho fuel input
           block_size items_per_thread) in Hinv.
  destruct Hinv as (_ & _ & _ & _ & _ & _ & added & Htr & Hadd).
  exists added. split; [exact Htr|].
  intros src dst grid bl size Hin.
  rewrite Forall_forall in Hadd. apply list_elem_of_In in Hin.
  exact (Hadd _ Hin).
Qed.

Lemma X14_call_never_launches_in_place_witness :
  exists added,
    trace (sum_call all_ok (one_to 100) 32 1 (sum_engine 32 [100] [32])).2.2
    = trace (sum_engine 32 [100] [32]).2 ++ added
    /\ forall src dst grid bl size, In (Launch src dst grid bl size) added -> src <> dst.
Proof.
  apply (X14_call_never_launches_in_place Z.add 0 all_ok lds77 (length (one_to 100))
           (one_to 100) 32 1 (sum_engine 32 [100] [32])).
  - vm_compute. discriminate.
  - vm_compute. discriminate.
Defined.

(** X15: an engine between two calls (original pointers, two distinct
    allocations, no pending error) serves them one after the other: on a
    platform where every runtime call succeeds, with an associative and
    commutative operator with neutral [zero_elem] and a warp width of the
    menu, two calls in a row, each on an input of at least two elements
    with its own block size and items per thread of the menus, the warp
    no wider than the block, the input fitting the front buffer, its
    first-pass output fitting the back buffer, within the kernel's 32-bit
    index range ([n + block_size * items_per_thread <= 2 ^ 31]) and with
    fuel for [n] passes, both return the sum of their input, and the
    engine is ready again afterwards. Nothing the first call leaves in
    the buffers or in the pointers reaches the second. *)
Theorem X15_engine_serves_consecutive_calls {T : Type} (op : T -> T -> T) (zero_elem : T)
    (hip_status : nat -> hipError_t) (lds : nat -> nat -> nat -> T)
    (fuel1 fuel2 : nat) (input1 input2 : list T)
    (block_size1 items_per_thread1 block_size2 items_per_thread2 : Z) (s : @state T) :
  (forall x y z, op x (op y z) = op (op x y) z) ->
  (forall x y, op x y = op y x) ->
  (forall x, op x zero_elem = x) ->
  (forall k, hip_status k = hipSuccess) ->
  ready s ->
  in_menu warp_size_menu (warp_size s.1) = true ->
  in_menu block_size_menu block_size1 = true ->
  in_menu items_per_thread_menu items_per_thread1 = true ->
  warp_size s.1 <= block_size1 ->
  (2 <= length input1 <= fuel1)%nat ->
  (length input1 <= length (mem s.2 (front s.1)))%nat ->
  new_size (block_size1 * items_per_thread1) (Z.of_nat (length input1))
    <= Z.of_nat (length (mem s.2 (back s.1))) ->
  Z.of_nat (length input1) + block_size1 * items_per_thread1 <= 2 ^ 31 ->
  in_menu block_size_menu block_size2 = true ->
  in_menu items_per_thread_menu items_per_thread2 = true ->
  warp_size s.1 <= block_size2 ->
  (2 <= length input2 <= fuel2)%nat ->
  (length input2 <= length (mem s.2 (front s.1)))%nat ->
  new_size (block_size2 * items_per_thread2) (Z.of_nat (length input2))
    <= Z.of_nat (length (mem s.2 (back s.1))) ->
  Z.of_nat (length input2) + block_size2 * items_per_thread2 <= 2 ^ 31 ->
  exists s1 s2,
    operator_call op zero_elem hip_status lds fuel1 input1 block_size1 items_per_thread1 s
    = (Ret (msum op zero_elem input1), s1)
    /\ operator_call op zero_elem hip_status lds fuel2 input2 block_size2
         items_per_thread2 s1
       = (Ret (msum op zero_elem input2), s2)
    /\ ready s2.
Proof.
  intros Ha Hc Hz Hok Hr Hws Hb1 Hi1 Hw1 Hn1 HA1 HB1 Hr1 Hb2 Hi2 Hw2 Hn2 HA2 HB2 Hr2.
  destruct (operator_call_serves op zero_elem hip_status lds fuel1 input1 block_size1
              items_per_thread1 s Ha Hc Hz Hok Hr Hb1 Hi1 Hws Hw1 Hn1 HA1 HB1 Hr1)
    as (s1 & E1 & Hready1 & Eo1 & Hlen1).
  assert (Hws1 : in_menu warp_size_menu (warp_size s1.1) = true) by (rewrite Eo1; exact Hws).
  assert (Hw2' : warp_size s1.1 <= block_size2) by (rewrite Eo1; exact Hw2).
  assert (HA2' : (length input2 <= length (mem s1.2 (front s1.1)))%nat)
    by (rewrite Eo1, Hlen1; exact HA2).
  assert (HB2' : new_size (block_size2 * items_per_thread2) (Z.of_nat (length input2))
                 <= Z.of_nat (length (mem s1.2 (back s1.1))))
    by (rewrite Eo1, Hlen1; exact HB2).
  destruct (operator_call_serves op zero_elem hip_status lds fuel2 input2 block_size2
              items_per_thread2 s1 Ha Hc Hz Hok Hready1 Hb2 Hi2 Hws1 Hw2' Hn2 HA2' HB2' Hr2)
    as (s2 & E2 & Hready2 & _ & _).
  exists s1, s2. split_and!; assumption.
Qed.

Lemma X15_engine_serves_consecutive_calls_witness :
  exists s1 s2,
    operator_call Z.add 0 all_ok lds77 100 (one_to 100) 32 1 (sum_engine 32 [100] [32])
    = (Ret (msum Z.add 0 (one_to 100)), s1)
    /\ operator_call Z.add 0 all_ok lds77 40 (one_to 40) 64 2 s1
       = (Ret (msum Z.add 0 (one_to 40)), s2)
    /\ ready s2.
Proof.
  apply (X15_engine_serves_consecutive_calls Z.add 0 all_ok lds77 100 40 (one_to 100)
           (one_to 40) 32 1 64 2 (sum_engine 32 [100] [32])).
  - intros; lia.
  - intros; lia.
  - intros; lia.
  - reflexivity.
  - vm_compute. split_and!; try reflexivity. discriminate.
  - reflexivity.
  - reflexivity.
  - reflexivity.
  - vm_compute. discriminate.
  - vm_compute. split; lia.
  - vm_compute. lia.
  - vm_compute. discriminate.
  - vm_compute. discriminate.
  - reflexivity.
  - reflexivity.
  - vm_compute. discriminate.
  - vm_compute. split; lia.
  - vm_compute. lia.
  - vm_compute. discriminate.
  - vm_compute. discriminate.
Defined.

(** X16: the buffers the constructor allocates are large enough for the
    calls it was built for. On a platform where every runtime call
    succeeds, with an associative and commutative operator with neutral
    [zero_elem], when the byte count [sizeof(T) * n] of every input size
    [n] of [input_sizes] fits [std::size_t] and every block size of
    [block_sizes] is at least 1: for an input of at least two elements
    whose size is one of [input_sizes] and lies in the kernel's 32-bit
    index range, a block size that is one of [block_sizes] and of the
    menu, items per thread of the menu, and a warp width of the menu not
    larger than the block size, the constructor followed by the call
    returns the sum of the input and leaves the engine ready. *)
Theorem X16_constructed_engine_serves_listed_calls {T : Type} (op : T -> T -> T)
    (zero_elem : T) (hip_status : nat -> hipError_t) (lds : nat -> nat -> nat -> T)
    (uninit : ptr -> nat -> T) (sizeof_T : Z) (input_sizes block_sizes : list Z)
    (warp : Z) (fuel : nat) (input : list T) (block_size items_per_thread : Z) :
  (forall x y z, op x (op y z) = op (op x y) z) ->
  (forall x y, op x y = op y x) ->
  (forall x, op x zero_elem = x) ->
  (forall k, hip_status k = hipSuccess) ->
  1 <= sizeof_T ->
  (forall n, In n input_sizes -> 0 <= n /\ sizeof_T * n < 2 ^ 64) ->
  (forall b, In b block_sizes -> 1 <= b) ->
  In (Z.of_nat (length input)) input_sizes ->
  In block_size block_sizes ->
  in_menu block_size_menu block_size = true ->
  in_menu items_per_thread_menu items_per_thread = true ->
  in_menu warp_size_menu warp = true ->
  warp <= block_size ->
  (2 <= length input <= fuel)%nat ->
  Z.of_nat (length input) + block_size * items_per_thread <= 2 ^ 31 ->
  exists s0 s1,
    v9_new hip_status uninit sizeof_T input_sizes block_sizes warp blank = (Ret tt, s0)
    /\ operator_call op zero_elem hip_status lds fuel input block_size items_per_thread s0
       = (Ret (msum op zero_elem input), s1)
    /\ ready s1.
Proof.
  intros Ha Hc Hz Hok Hsz Hbytes Hblocks Hin Hbin Hbs Hipt Hws Hwb Hn Hrange.
  destruct (min_element block_sizes) as [smallest|] eqn:Emin;
    [|destruct block_sizes; [destruct Hbin|discriminate Emin]].
  destruct (max_element input_sizes) as [largest|] eqn:Emax;
    [|destruct input_sizes; [destruct Hin|discriminate Emax]].
  destruct (min_element_spec _ _ Emin) as [Hsm_in Hsm].
  destruct (max_element_spec _ _ Emax) as [Hlg_in Hlg].
  destruct (Hbytes _ Hlg_in) as [Hlg0 Hfit].
  assert (Hlg_range : 0 <= largest < 2 ^ 64) by nia.
  pose proof (Hblocks _ Hsm_in) as Hsm_pos.
  destruct (v9_new_ok hip_status uninit sizeof_T Hok input_sizes block_sizes warp
              smallest largest Hsz Hsm_pos Hlg0 Hfit Emin Emax)
    as (d & E0 & HA & HB & Hle).
  pose proof (Hsm _ Hbin) as Hsm_le.
  pose proof (Hlg _ Hin) as Hlen_le.
  pose proof (menu_items _ Hipt) as Hipt'.
  pose proof (menu_block _ Hbs) as Hbs'.
  set (o := {| front := BufA; back := BufB; origi_front := BufA; origi_back := BufB;
               warp_size := warp |}) in *.
  assert (Hcap : new_size (block_size * items_per_thread) (Z.of_nat (length input))
                 <= new_size smallest largest).
  { transitivity (new_size smallest (Z.of_nat (length input))).
    - apply new_size_mono_factor; [nia|lia].
    - apply new_size_mono_n; lia. }
  assert (Hns : 0 <= new_size smallest largest).
  { unfold new_size, size_t. apply Z.mod_pos_bound. lia. }
  destruct (operator_call_serves op zero_elem hip_status lds fuel input block_size
              items_per_thread (o, d) Ha Hc Hz Hok) as (s1 & E1 & Hready & _ & _);
    try assumption.
  - unfold ready. simpl. split_and!; try reflexivity; [discriminate|exact Hle].
  - simpl. rewrite HA. lia.
  - simpl. rewrite HB. lia.
  - exists (o, d), s1. split_and!; assumption.
Qed.

Lemma X16_constructed_engine_serves_listed_calls_witness :
  exists s0 s1,
    v9_new all_ok fresh99 4 [8; 100; 40] [64; 32] 32 blank = (Ret tt, s0)
    /\ operator_call Z.add 0 all_ok lds77 100 (one_to 100) 64 2 s0
       = (Ret (msum Z.add 0 (one_to 100)), s1)
    /\ ready s1.
Proof.
  apply (X16_constructed_engine_serves_listed_calls Z.add 0 all_ok lds77 fresh99 4
           [8; 100; 40] [64; 32] 32 100 (one_to 100) 64 2).
  - intros; lia.
  - intros; lia.
  - intros; lia.
  - reflexivity.
  - lia.
  - intros n [<-|[<-|[<-|[]]]]; lia.
  - intros b [<-|[<-|[]]]; lia.
  - right. left. reflexivity.
  - left. reflexivity.
  - reflexivity.
  - reflexivity.
  - reflexivity.
  - lia.
  - vm_compute. split; lia.
  - vm_compute. discriminate.
Defined.

(** ** How many passes a call makes, and where its result ends up *)

Lemma pass_chain_nonempty factor block curr f b passes last :
  pass_chain factor block curr f b passes last -> 1 < curr -> (1 <= length passes)%nat.
Proof. intros H Hc. destruct H; simpl; lia. Qed.

Lemma pass_chain_count factor block curr f b passes last :
  2 <= factor -> 0 <= curr < 2 ^ 64 ->
  pass_chain factor block curr f b passes last ->
  curr <= factor ^ Z.of_nat (length passes)
  /\ (1 < curr -> factor ^ (Z.of_nat (length passes) - 1) < curr).
Proof.
  intros Hf Hc H. induction H as [curr f b Hle|curr f b Hgt Hns|curr f b passes last Hgt Hns H IH].
  - simpl. split; lia.
  - pose proof (new_size_cover factor curr ltac:(lia) Hc) as Hcov.
    simpl length. change (Z.of_nat 1) with 1. rewrite Z.pow_1_r.
    change (1 - 1) with 0. rewrite Z.pow_0_r. split; [nia|lia].
  - pose proof (new_size_cover factor curr ltac:(lia) Hc) as Hcov.
    pose proof (new_size_bounds factor curr ltac:(lia) ltac:(lia)) as Hb.
    destruct (IH ltac:(lia)) as [IH1 IH2]. specialize (IH2 Hns).
    pose proof (pass_chain_nonempty _ _ _ _ _ _ _ H Hns) as Hk.
    simpl length. rewrite Nat2Z.inj_succ, Z.pow_succ_r by lia.
    replace (Z.succ (Z.of_nat (length passes)) - 1) with (Z.of_nat (length passes)) by lia.
    split; [nia|]. intros _.
    replace (Z.of_nat (length passes)) with (Z.succ (Z.of_nat (length passes) - 1)) by lia.
    rewrite Z.pow_succ_r by lia. nia.
Qed.

Lemma pass_chain_parity factor block curr f b passes last :
  pass_chain factor block curr f b passes last ->
  last = if Nat.even (length passes) && negb (length passes =? 0)%nat then f else b.
Proof.
  intros H. induction H as [curr f b Hle|curr f b Hgt Hns|curr f b passes last Hgt Hns H IH].
  - reflexivity.
  - reflexivity.
  - pose proof (pass_chain_nonempty _ _ _ _ _ _ _ H Hns) as Hk.
    rewrite IH. change (length (?e :: passes)) with (S (length passes)).
    rewrite Nat.even_succ, <- Nat.negb_even.
    destruct (length passes) as [|k]; [lia|].
    destruct (Nat.even (S k)); reflexivity.
Qed.

Lemma pass_loop_short {T : Type} (op : T -> T -> T) (zero_elem : T)
    (hip_status : nat -> hipError_t) (lds : nat -> nat -> nat -> T)
    fuel block_size items_per_thread factor curr :
  curr <= 1 ->
  pass_loop op zero_elem hip_status lds fuel block_size items_per_thread factor curr
  = ret tt.
Proof.
  intros H. assert (E : (1 <? curr) = false) by (apply Z.ltb_ge; exact H).
  destruct fuel; simpl; rewrite E; reflexivity.
Qed.

(** X17: the number of passes of a call that returns is the logarithm of
    the input size to the base [factor = block_size * items_per_thread],
    rounded up: with [p] launches between the copy-in and the copy-out,
    [factor ^ (p - 1) < n <= factor ^ p] for an input of [n >= 2]
    elements. *)
Theorem X17_pass_count_is_logarithmic {T : Type} (op : T -> T -> T) (zero_elem : T)
    (hip_status : nat -> hipError_t) (lds : nat -> nat -> nat -> T)
    (fuel : nat) (input : list T) (block_size items_per_thread : Z)
    (s s' : @state T) (r : T) :
  operator_call op zero_elem hip_status lds fuel input block_size items_per_thread s
  = (Ret r, s') ->
  2 <= size_t (block_size * items_per_thread) ->
  2 <= Z.of_nat (length input) < 2 ^ 64 ->
  exists passes last_back,
    pass_chain (size_t (block_size * items_per_thread)) block_size
      (Z.of_nat (length input)) (front s.1) (back s.1) passes last_back
    /\ trace s'.2
       = trace s.2 ++ [CopyIn (front s.1) (length input)] ++ passes
           ++ [CopyOut last_back]
    /\ size_t (block_size * items_per_thread) ^ (Z.of_nat (length passes) - 1)
       < Z.of_nat (length input)
       <= size_t (block_size * items_per_thread) ^ Z.of_nat (length passes).
Proof.
  intros E Hf Hn.
  destruct (operator_call_returned op zero_elem hip_status lds fuel input block_size
              items_per_thread s s' r E) as (passes & last & Hchain & Htr & _ & _).
  exists passes, last. split; [exact Hchain|]. split; [exact Htr|].
  assert (Hn' : 0 <= Z.of_nat (length input) < 2 ^ 64) by lia.
  destruct (pass_chain_count _ _ _ _ _ _ _ Hf Hn' Hchain) as [H1 H2].
  split; [apply H2; lia|exact H1].
Qed.

Lemma X17_pass_count_is_logarithmic_witness :
  exists passes last_back,
    pass_chain (size_t (32 * 1)) 32 (Z.of_nat (length (one_to 40))) BufA BufB
      passes last_back
    /\ trace (sum_call all_ok (one_to 40) 32 1 (sum_engine 32 [40] [32])).2.2
       = trace (sum_engine 32 [40] [32]).2
           ++ [CopyIn BufA (length (one_to 40))] ++ passes ++ [CopyOut last_back]
    /\ size_t (32 * 1) ^ (Z.of_nat (length passes) - 1)
       < Z.of_nat (length (one_to 40))
       <= size_t (32 * 1) ^ Z.of_nat (length passes).
Proof.
  apply (X17_pass_count_is_logarithmic Z.add 0 all_ok lds77 (length (one_to 40))
           (one_to 40) 32 1 (sum_engine 32 [40] [32])
           (sum_call all_ok (one_to 40) 32 1 (sum_engine 32 [40] [32])).2
           820).
  - vm_compute. reflexivity.
  - vm_compute. discriminate.
  - vm_compute. split; [discriminate|reflexivity].
Defined.

(** X18: the buffer a returning call reads its result from is fixed by
    the parity of the number of passes: the back buffer of the call's
    entry when that number is odd or zero, the front buffer when it is
    even and not zero. *)
Theorem X18_result_buffer_by_parity {T : Type} (op : T -> T -> T) (zero_elem : T)
    (hip_status : nat -> hipError_t) (lds : nat -> nat -> nat -> T)
    (fuel : nat) (input : list T) (block_size items_per_thread : Z)
    (s s' : @state T) (r : T) :
  operator_call op zero_elem hip_status lds fuel input block_size items_per_thread s
  = (Ret r, s') ->
  exists passes,
    trace s'.2
    = trace s.2 ++ [CopyIn (front s.1) (length input)] ++ passes
        ++ [CopyOut (if Nat.even (length passes) && negb (length passes =? 0)%nat
                     then front s.1 else back s.1)]
    /\ Forall (fun e => exists src dst grid size, e = Launch src dst grid block_size size)
         passes.
Proof.
  intros E.
  destruct (operator_call_returned op zero_elem hip_status lds fuel input block_size
              items_per_thread s s' r E) as (passes & last & Hchain & Htr & _ & _).
  exists passes. split.
  - rewrite <- (pass_chain_parity _ _ _ _ _ _ _ Hchain). exact Htr.
  - clear Htr. induction Hchain; repeat constructor; eauto.
Qed.

Lemma X18_result_buffer_by_parity_witness :
  exists passes,
    trace (sum_call all_ok (one_to 40) 32 1 (sum_engine 32 [40] [32])).2.2
    = trace (sum_engine 32 [40] [32]).2
        ++ [CopyIn (front (sum_engine 32 [40] [32]).1) (length (one_to 40))]
        ++ passes
        ++ [CopyOut (if Nat.even (length passes) && negb (length passes =? 0)%nat
                     then front (sum_engine 32 [40] [32]).1
                     else back (sum_engine 32 [40] [32]).1)]
    /\ Forall (fun e => exists src dst grid size, e = Launch src dst grid 32 size) passes.
Proof.
  apply (X18_result_buffer_by_parity Z.add 0 all_ok lds77 (length (one_to 40))
           (one_to 40) 32 1 (sum_engine 32 [40] [32])
           (sum_call all_ok (one_to 40) 32 1 (sum_engine 32 [40] [32])).2
           820).
  vm_compute. reflexivity.
Defined.

(** X19: for an input of at most one element the loop body never runs:
    on a platform where every runtime call succeeds the call launches no
    kernel, consults no menu (any block size and items per thread are
    accepted), needs no fuel, and returns the first cell of the back
    buffer as it was before the call; the input is only copied to the
    front buffer. *)
Theorem X19_short_input_launches_nothing {T : Type} (op : T -> T -> T) (zero_elem : T)
    (hip_status : nat -> hipError_t) (lds : nat -> nat -> nat -> T)
    (fuel : nat) (input : list T) (block_size items_per_thread : Z)
    (o : v9) (d : @device T) (v : T) :
  (forall k, hip_status k = hipSuccess) ->
  (length input <= 1)%nat ->
  (length input <= length (mem d (front o)))%nat ->
  front o <> back o ->
  mem d (back o) !! 0%nat = Some v ->
  exists s',
    operator_call op zero_elem hip_status lds fuel input block_size items_per_thread (o, d)
    = (Ret v, s')
    /\ launches s'.2 = launches d
    /\ trace s'.2 = trace d ++ [CopyIn (front o) (length input); CopyOut (back o)]
    /\ mem s'.2 (back o) = mem d (back o)
    /\ mem s'.2 (front o) = input ++ drop (length input) (mem d (front o)).
Proof.
  intros Hok Hn Hfit Hne Hv.
  assert (E : exists s',
    operator_call op zero_elem hip_status lds fuel input block_size items_per_thread (o, d)
    = (Ret v, s')
    /\ launches s'.2 = launches d
    /\ mem s'.2 (back o) = mem d (back o)
    /\ mem s'.2 (front o) = input ++ drop (length input) (mem d (front o))).
  { unfold operator_call. rewrite bind_gets. cbn [fst snd].
    destruct (copy_in_ok hip_status Hok "hipMemcpy" (front o) input o d Hfit)
      as (d1 & Hcopy & Hfront1 & Hother1 & _ & Hl1).
    rewrite (bind_Ret _ _ _ _ _ Hcopy).
    assert (Hback1 : mem d1 (back o) !! 0%nat = Some v)
      by (rewrite Hother1 by congruence; exact Hv).
    destruct d1 as [mA mB c l le tr].
    rewrite (bind_Ret _ _ _ _ _ (event_ok hip_status Hok _ _ _)). cbn [memA memB calls launches last_error trace].
    rewrite (bind_Ret _ _ _ _ _ (event_ok hip_status Hok _ _ _)). cbn [memA memB calls launches last_error trace].
    rewrite (bind_Ret _ _ _ _ _ (event_ok hip_status Hok _ _ _)). cbn [memA memB calls launches last_error trace].
    rewrite pass_loop_short by lia.
    unfold bind at 1. unfold ret at 1.
    rewrite (bind_Ret _ _ _ _ _ (event_ok hip_status Hok _ _ _)). cbn [memA memB calls launches last_error trace].
    rewrite (bind_Ret _ _ _ _ _ (event_ok hip_status Hok _ _ _)). cbn [memA memB calls launches last_error trace].
    rewrite bind_gets. cbn [fst snd].
    match goal with |- context [bind _ _ (o, ?dd)] =>
      assert (Hv' : mem dd (back o) !! 0%nat = Some v)
        by (destruct (back o); exact Hback1);
      rewrite (bind_Ret _ _ _ _ _ (copy_out_ok hip_status Hok (back o) o dd v Hv'))
    end.
    cbn [fst snd]. unfold HIP_CHECK at 1. unfold bind at 1 2, ret at 1 2.
    unfold record. cbn [memA memB calls launches last_error trace].
    rewrite (bind_Ret _ _ _ _ _ (event_ok hip_status Hok _ _ _)). cbn [memA memB calls launches last_error trace].
    rewrite (bind_Ret _ _ _ _ _ (event_ok hip_status Hok _ _ _)). cbn [memA memB calls launches last_error trace].
    rewrite (bind_Ret _ _ _ _ _ (event_ok hip_status Hok _ _ _)). cbn [memA memB calls launches last_error trace].
    unfold restore at 1. unfold bind at 1, modify at 1. unfold ret.
    eexists. split; [reflexivity|]. cbn [fst snd launches].
    split; [exact Hl1|].
    split.
    - rewrite <- (Hother1 (back o)) by congruence.
      destruct (back o); reflexivity.
    - rewrite <- Hfront1. destruct (front o); reflexivity. }
  destruct E as (s' & E & Hl & Hb & Hf). exists s'.
  split; [exact E|]. split; [exact Hl|]. split; [|split; assumption].
  destruct (operator_call_returned op zero_elem hip_status lds fuel input block_size
              items_per_thread (o, d) s' v E) as (passes & last & Hchain & Htr & _ & _).
  simpl in Hchain, Htr. inversion Hchain; subst; try lia. exact Htr.
Qed.

Lemma X19_short_input_launches_nothing_witness :
  exists s',
    operator_call Z.add 0 all_ok lds77 0 [5] 7 5 (sum_engine 32 [8] [32])
    = (Ret 99, s')
    /\ launches s'.2 = launches (sum_engine 32 [8] [32]).2
    /\ trace s'.2
       = trace (sum_engine 32 [8] [32]).2
           ++ [CopyIn (front (sum_engine 32 [8] [32]).1) (length [5]);
               CopyOut (back (sum_engine 32 [8] [32]).1)]
    /\ mem s'.2 (back (sum_engine 32 [8] [32]).1)
       = mem (sum_engine 32 [8] [32]).2 (back (sum_engine 32 [8] [32]).1)
    /\ mem s'.2 (front (sum_engine 32 [8] [32]).1)
       = [5] ++ drop (length [5])
                  (mem (sum_engine 32 [8] [32]).2 (front (sum_engine 32 [8] [32]).1)).
Proof.
  apply (X19_short_input_launches_nothing Z.add 0 all_ok lds77 0 [5] 7 5
           (sum_engine 32 [8] [32]).1 (sum_engine 32 [8] [32]).2 99).
  - reflexivity.
  - simpl. lia.
  - vm_compute. lia.
  - vm_compute. discriminate.
  - vm_compute. reflexivity.
Defined.

(** X20: for a block of at most [WarpSize] warps the loop over the active
    warps instantiates its body twice, for [ActiveWarps = WarpCount] and
    then for 1, and once when the block is a single warp; this holds for
    any operator. *)
Theorem X20_block_loop_rounds {T : Type} (op : T -> T -> T) (zero_elem : T)
    (WarpSize WarpCount : nat) (b : @block T) :
  (2 <= WarpSize)%nat -> (1 <= WarpCount <= WarpSize)%nat ->
  static_for (S WarpCount) WarpCount (not_equal 0)
    (select (not_equal 1) (divide_ceil WarpSize) (constant 0))
    (block_round op zero_elem (WarpCount * WarpSize) WarpSize) b
  = if (WarpCount =? 1)%nat
    then block_round op zero_elem (WarpCount * WarpSize) WarpSize 1 b
    else block_round op zero_elem (WarpCount * WarpSize) WarpSize 1
           (block_round op zero_elem (WarpCount * WarpSize) WarpSize WarpCount b).
Proof.
  intros HW HWC.
  assert (Hc : not_equal 0 WarpCount = true).
  { unfold not_equal. destruct (Nat.eqb_spec WarpCount 0); [lia|reflexivity]. }
  rewrite static_for_step by exact Hc.
  destruct (Nat.eqb_spec WarpCount 1) as [->|Hne].
  - apply static_for_stop. reflexivity.
  - assert (Hstep : select (not_equal 1) (divide_ceil WarpSize) (constant 0) WarpCount
                    = 1%nat).
    { unfold select, not_equal, divide_ceil.
      destruct (Nat.eqb_spec WarpCount 1) as [|_]; [lia|]. cbn [negb].
      destruct (decide (WarpCount = WarpSize)) as [->|Hlt].
      - rewrite Nat.div_same, Nat.Div0.mod_same by lia. reflexivity.
      - rewrite Nat.div_small, Nat.mod_small by lia.
        destruct (Nat.eqb_spec WarpCount 0); [lia|reflexivity]. }
    rewrite Hstep.
    destruct WarpCount as [|k]; [lia|].
    rewrite static_for_step by reflexivity.
    apply static_for_stop. reflexivity.
Qed.

Lemma X20_block_loop_rounds_witness :
  static_for (S 4) 4 (not_equal 0) (select (not_equal 1) (divide_ceil 32) (constant 0))
    (block_round Z.add 0 (4 * 32) 32) {| res := one_to 128; shared := [7; 7; 7; 7] |}
  = if (4 =? 1)%nat
    then block_round Z.add 0 (4 * 32) 32 1 {| res := one_to 128; shared := [7; 7; 7; 7] |}
    else block_round Z.add 0 (4 * 32) 32 1
           (block_round Z.add 0 (4 * 32) 32 4
              {| res := one_to 128; shared := [7; 7; 7; 7] |}).
Proof.
  apply (X20_block_loop_rounds Z.add 0 32 4
           {| res := one_to 128; shared := [7; 7; 7; 7] |}); lia.
Defined.
